(** * FABRIK 2D inverse-kinematics solver (src/solver.py)

    A shallow embedding of [unitVector], [Segment2D] and [FabrikSolver2D],
    followed by the properties of the chain solver.

    Numbers.  Python floats are idealised as real numbers.  The only
    non-finite value the solver itself can create is the quiet NaN that
    numpy returns for [0 / 0] when [unitVector] is handed the zero vector
    (numpy warns, it does not raise); it is kept explicit, because several
    properties are about exactly that case.  A two-element numpy array is
    therefore either a pair of reals or all-NaN: the norm of a vector is
    zero only when both coordinates are, so both quotients are [0 / 0].

    Errors.  The only exception the solver can raise is [IndexError], from
    indexing the Python list [self.segments]; list indexing follows
    Python (negative indices count from the end, out of range raises).

    Loops.  The two [for] loops of [iterate] are folds of their bodies over
    the index ranges; the unbounded [while] loop of [compute] takes fuel,
    and running out of fuel is a result of its own. *)

From Stdlib Require Import Reals Lra Lia ZArith List.
From stdpp Require Import base list.
Import ListNotations.

Open Scope R_scope.

(** ** Floats and arrays *)

(** A float: a real number or NaN. *)
Inductive scalar : Type :=
  | Num (r : R)
  | NaN.

(** A numpy array of two floats. *)
Inductive array2 : Type :=
  | Arr (x y : R)
  | ArrNaN.

(** [a + b], [a - b] on arrays, [a * k] and [a / n] by a float. *)
Definition vadd (a b : array2) : array2 :=
  match a, b with
  | Arr x1 y1, Arr x2 y2 => Arr (x1 + x2) (y1 + y2)
  | _, _ => ArrNaN
  end.

Definition vsub (a b : array2) : array2 :=
  match a, b with
  | Arr x1 y1, Arr x2 y2 => Arr (x1 - x2) (y1 - y2)
  | _, _ => ArrNaN
  end.

Definition vscale (a : array2) (k : R) : array2 :=
  match a with
  | Arr x y => Arr (x * k) (y * k)
  | ArrNaN => ArrNaN
  end.

(** [np.linalg.norm]: the Euclidean norm. *)
Definition norm (a : array2) : scalar :=
  match a with
  | Arr x y => Num (sqrt (x * x + y * y))
  | ArrNaN => NaN
  end.

(** Division of an array by a float.  The divisor is always the norm of
    the array itself in this program, so a zero divisor means [0 / 0]. *)
Definition vdiv (a : array2) (n : scalar) : array2 :=
  match a, n with
  | Arr x y, Num d => if Req_dec_T d 0 then ArrNaN else Arr (x / d) (y / d)
  | _, _ => ArrNaN
  end.

(** [d < r] on floats: every comparison with NaN is false. *)
Definition flt (d : scalar) (r : R) : bool :=
  match d with
  | Num x => if Rlt_dec x r then true else false
  | NaN => false
  end.

(** [unitVector(vector)]: [vector / np.linalg.norm(vector)]. *)
Definition unitVector (vector : array2) : array2 :=
  vdiv vector (norm vector).

(** ** Exceptions and Python lists *)

Inductive exn : Type :=
  | IndexError.

Inductive result (A : Type) : Type :=
  | Ok (a : A)
  | Raise (e : exn).
Arguments Ok {A} a.
Arguments Raise {A} e.

#[global] Instance result_ret : MRet result := fun A a => Ok a.

#[global] Instance result_bind : MBind result := fun A B k m =>
  match m with
  | Ok a => k a
  | Raise e => Raise e
  end.

(** A [for] loop whose body may raise. *)
Fixpoint for_each {A I : Type} (body : A -> I -> result A)
    (indices : list I) (a : A) : result A :=
  match indices with
  | [] => Ok a
  | i :: rest => a' ← body a i; for_each body rest a'
  end.

(** The position a Python index denotes in a list of [n] elements. *)
Definition index_of (n : nat) (k : Z) : result nat :=
  let k' := (if k <? 0 then k + Z.of_nat n else k)%Z in
  if ((k' <? 0) || (Z.of_nat n <=? k'))%Z then Raise IndexError
  else Ok (Z.to_nat k').

(** [l[k]]. *)
Definition getitem {A : Type} (l : list A) (k : Z) : result A :=
  i ← index_of (length l) k;
  match l !! i with
  | Some a => Ok a
  | None => Raise IndexError
  end.

(** [range(n)] and [range(start, 0, -1)]. *)
Definition range (n : Z) : list Z :=
  map Z.of_nat (seq 0 (Z.to_nat n)).

Definition range_down (start : Z) : list Z :=
  map Z.of_nat (rev (seq 1 (Z.to_nat start))).

(** [len(l)]. *)
Definition len {A : Type} (l : list A) : Z := Z.of_nat (length l).

(** ** Segment2D *)

Module Segment2D.

Record t : Type := Build {
  angle : R;
  length : R;
  point : array2
}.

(** [math.radians]. *)
Definition radians (deg : R) : R := deg * PI / 180.

(** [Segment2D.__init__].  The two coordinates of the reference point
    travel together, as the array they are read from. *)
Definition init (reference : array2) (length angle : R) : t :=
  let deltaX := cos (radians angle) * length in
  let deltaY := sin (radians angle) * length in
  Build angle length (vadd reference (Arr deltaX deltaY)).

(** [segment.point = p]. *)
Definition set_point (seg : t) (p : array2) : t :=
  Build (angle seg) (length seg) p.

End Segment2D.

(** ** FabrikSolver2D *)

Module FabrikSolver2D.

Record t : Type := Build {
  basePoint : array2;
  segments : list Segment2D.t;
  armLength : R;
  marginOfError : R
}.

(** [FabrikSolver2D.__init__]. *)
Definition init (baseX baseY marginOfError : R) : t :=
  Build (Arr baseX baseY) [] 0 marginOfError.

(** [addSegment]. *)
Definition addSegment (self : t) (length angle : R) : result t :=
  segment ←
    (if (0 <? len (segments self))%Z then
       last ← getitem (segments self) (-1);
       Ok (Segment2D.init (Segment2D.point last) length
             (angle + Segment2D.angle last))
     else
       Ok (Segment2D.init (basePoint self) length angle));
  Ok (Build (basePoint self)
            (segments self ++ [segment])
            (armLength self + Segment2D.length segment)
            (marginOfError self)).

(** [isReachable]. *)
Definition isReachable (self : t) (targetX targetY : R) : bool :=
  let distance := norm (vsub (basePoint self) (Arr targetX targetY)) in
  flt distance (armLength self).

(** [inMarginOfError]. *)
Definition inMarginOfError (self : t) (targetX targetY : R) : result bool :=
  last ← getitem (segments self) (-1);
  let distance := norm (vsub (Segment2D.point last) (Arr targetX targetY)) in
  Ok (flt distance (marginOfError self)).

(** [segs[k].point = p]. *)
Definition assign_point (segs : list Segment2D.t) (k : Z) (p : array2)
    : result (list Segment2D.t) :=
  i ← index_of (List.length segs) k;
  match segs !! i with
  | Some seg => Ok (<[i := Segment2D.set_point seg p]> segs)
  | None => Raise IndexError
  end.

(** Body of the backward-reaching loop of [iterate]. *)
Definition backward_body (target : array2) (segs : list Segment2D.t) (i : Z)
    : result (list Segment2D.t) :=
  if (i =? len segs - 1)%Z then
    prev ← getitem segs (i - 1);
    cur ← getitem segs i;
    assign_point segs (i - 1)
      (vadd (vscale (unitVector (vsub (Segment2D.point prev) target))
                    (Segment2D.length cur))
            target)
  else
    prev ← getitem segs (i - 1);
    cur ← getitem segs i;
    assign_point segs (i - 1)
      (vadd (vscale (unitVector (vsub (Segment2D.point prev)
                                      (Segment2D.point cur)))
                    (Segment2D.length cur))
            (Segment2D.point cur)).

(** Body of the forward-reaching loop of [iterate]. *)
Definition forward_body (base target : array2) (segs : list Segment2D.t)
    (i : Z) : result (list Segment2D.t) :=
  if (i =? 0)%Z then
    cur ← getitem segs i;
    assign_point segs i
      (vadd (vscale (unitVector (vsub (Segment2D.point cur) base))
                    (Segment2D.length cur))
            base)
  else if (i =? len segs - 1)%Z then
    prev ← getitem segs (i - 1);
    cur ← getitem segs i;
    assign_point segs i
      (vadd (vscale (vscale (unitVector (vsub (Segment2D.point prev) target))
                            (Segment2D.length cur))
                    (-1))
            (Segment2D.point prev))
  else
    cur ← getitem segs i;
    prev ← getitem segs (i - 1);
    assign_point segs i
      (vadd (vscale (unitVector (vsub (Segment2D.point cur)
                                      (Segment2D.point prev)))
                    (Segment2D.length cur))
            (Segment2D.point prev)).

(** [iterate]: one backward sweep, then one forward sweep. *)
Definition iterate (self : t) (targetX targetY : R) : result t :=
  let target := Arr targetX targetY in
  segs1 ← for_each (backward_body target)
             (range_down (len (segments self) - 1)) (segments self);
  segs2 ← for_each (forward_body (basePoint self) target)
             (range (len segs1)) segs1;
  Ok (Build (basePoint self) segs2 (armLength self) (marginOfError self)).

(** The [while] loop of [compute]; [fuel] bounds the number of times the
    loop condition is evaluated, [None] is fuel exhausted. *)
Fixpoint converge (fuel : nat) (self : t) (targetX targetY : R)
    : option (result t) :=
  match fuel with
  | O => None
  | S fuel' =>
      match inMarginOfError self targetX targetY with
      | Raise e => Some (Raise e)
      | Ok true => Some (Ok self)
      | Ok false =>
          match iterate self targetX targetY with
          | Raise e => Some (Raise e)
          | Ok self' => converge fuel' self' targetX targetY
          end
      end
  end.

(** [compute]: the returned flag together with the solver afterwards. *)
Definition compute (fuel : nat) (self : t) (targetX targetY : R)
    : option (result (bool * t)) :=
  if negb (isReachable self targetX targetY) then Some (Ok (false, self))
  else
    match converge fuel self targetX targetY with
    | None => None
    | Some (Raise e) => Some (Raise e)
    | Some (Ok self') => Some (Ok (true, self'))
    end.

(** [get_joint_positions]: the base point, then every joint in order. *)
Definition get_joint_positions (self : t) : list array2 :=
  basePoint self :: (Segment2D.point <$> segments self).

End FabrikSolver2D.

(** ** FabrikVisualizer (src/visualizer.py)

    The part of the visualiser that drives the solver.  The pygame objects
    it holds (screen, clock, fonts, colours) and its drawing methods have
    no influence on the fields below and are not modelled.  What pygame
    hands to [handle_events] is its input here: the event queue returned
    by [pygame.event.get()] is a list, and a [MOUSEBUTTONDOWN] event
    carries the pixel position that [pygame.mouse.get_pos()] returns when
    the event is handled. *)

Module FabrikVisualizer.

Inductive event : Type :=
  | QUIT
  | MOUSEBUTTONDOWN (pos : Z * Z)
  | OTHER.

Record t : Type := Build {
  width : Z;
  height : Z;
  solver : FabrikSolver2D.t;
  target : option (Z * Z);
  target_reachable : bool
}.

(** [FabrikVisualizer.__init__]: the arm is created at the centre of the
    window, with three segments of lengths 150, 120 and 100 at relative
    angle 0. *)
Definition init (width height : Z) : result t :=
  let center_x := (width / 2)%Z in
  let center_y := (height / 2)%Z in
  let solver0 :=
    FabrikSolver2D.init (IZR center_x) (IZR center_y) (1 / 100) in
  solver1 ← FabrikSolver2D.addSegment solver0 150 0;
  solver2 ← FabrikSolver2D.addSegment solver1 120 0;
  solver3 ← FabrikSolver2D.addSegment solver2 100 0;
  Ok (Build width height solver3 None true).

(** [handle_events]: [False] as soon as a [QUIT] event is met, [True] when
    the queue is exhausted; every mouse click sets the target and solves
    for it.  [fuel] is the fuel of each call of [compute]. *)
Fixpoint handle_events (fuel : nat) (self : t) (events : list event)
    : option (result (bool * t)) :=
  match events with
  | [] => Some (Ok (true, self))
  | QUIT :: _ => Some (Ok (false, self))
  | MOUSEBUTTONDOWN pos :: rest =>
      match FabrikSolver2D.compute fuel (solver self)
              (IZR (fst pos)) (IZR (snd pos)) with
      | None => None
      | Some (Raise e) => Some (Raise e)
      | Some (Ok (reachable, solver')) =>
          handle_events fuel
            (Build (width self) (height self) solver' (Some pos) reachable)
            rest
      end
  | OTHER :: rest => handle_events fuel self rest
  end.

End FabrikVisualizer.

(** * Auxiliary definitions *)

Import FabrikSolver2D.

(** ** The right-hand sides of the loop bodies

    [place p anchor l] moves [p] onto the circle of radius [l] around
    [anchor], along the ray from [anchor] to [p]; [pull prev target l] is
    the point at distance [l] from [prev] on the ray from [prev] towards
    [target].  These are the three right-hand sides of the loop bodies. *)

Definition place (p anchor : array2) (l : R) : array2 :=
  vadd (vscale (unitVector (vsub p anchor)) l) anchor.

Definition pull (prev target : array2) (l : R) : array2 :=
  vadd (vscale (vscale (unitVector (vsub prev target)) l) (-1)) prev.

(** The position that precedes joint [i]: the base point for the first
    joint, the joint of segment [i - 1] otherwise. *)
Definition joint_before (base : array2) (l : list Segment2D.t) (i : nat)
    : array2 :=
  match i with
  | O => base
  | S j => from_option Segment2D.point ArrNaN (l !! j)
  end.

(** What the backward sweep stores in joint [j], given segment [j + 1]. *)
Definition backward_joint (target : array2) (n : nat) (next : Segment2D.t)
    (j : nat) (sj : Segment2D.t) : array2 :=
  if bool_decide (S (S j) = n)
  then place (Segment2D.point sj) target (Segment2D.length next)
  else place (Segment2D.point sj) (Segment2D.point next)
             (Segment2D.length next).

(** What the forward sweep stores in joint [i], given its predecessor. *)
Definition forward_joint (target : array2) (n : nat) (prev : array2)
    (i : nat) (si : Segment2D.t) : array2 :=
  if bool_decide (i <> 0%nat /\ S i = n)
  then pull prev target (Segment2D.length si)
  else place (Segment2D.point si) prev (Segment2D.length si).

(** State of the backward loop when the indices above [k] are done. *)
Definition backward_inv (target : array2) (segs : list Segment2D.t)
    (k : nat) (l : list Segment2D.t) : Prop :=
  let n := length segs in
  length l = n /\
  (forall j, (j < k)%nat \/ (n <= S j)%nat -> l !! j = segs !! j) /\
  (forall j sj, (k <= j)%nat -> (S j < n)%nat -> segs !! j = Some sj ->
     exists next,
       l !! S j = Some next /\
       l !! j = Some (Segment2D.set_point sj
                        (backward_joint target n next j sj))).

(** State of the forward loop when the indices below [k] are done; [mid]
    is the list the loop started from. *)
Definition forward_inv (base target : array2) (mid : list Segment2D.t)
    (k : nat) (l : list Segment2D.t) : Prop :=
  let n := length mid in
  length l = n /\
  (forall j, (k <= j)%nat -> l !! j = mid !! j) /\
  (forall j sj, (j < k)%nat -> mid !! j = Some sj ->
     l !! j = Some (Segment2D.set_point sj
                      (forward_joint target n (joint_before base l j) j sj))).


(** ** Solvers built through the interface *)

(** The sum of the segment lengths of a chain. *)
Definition total_length (self : t) : R :=
  foldr Rplus 0 (Segment2D.length <$> segments self).

(** The solvers a caller can obtain: constructed, extended by
    [addSegment], moved by [iterate] (and so by [compute]). *)
Inductive built : t -> Prop :=
  | built_init (baseX baseY margin : R) :
      built (init baseX baseY margin)
  | built_addSegment (self self' : t) (length angle : R) :
      built self -> addSegment self length angle = Ok self' -> built self'
  | built_iterate (self self' : t) (tx ty : R) :
      built self -> iterate self tx ty = Ok self' -> built self'.

(** ** Repeated sweeps *)

(** [k] calls of [iterate] in a row, as the loop of [compute] makes them. *)
Fixpoint sweeps (k : nat) (self : t) (targetX targetY : R) : result t :=
  match k with
  | O => Ok self
  | S k' => self' ← iterate self targetX targetY; sweeps k' self' targetX targetY
  end.

(** ** Example chains *)

(** A segment created at angle 0 whose joint is at [(x, y)]. *)
Definition seg (l x y : R) : Segment2D.t :=
  Segment2D.Build 0 l (Arr x y).

(** The chain of the visualiser: lengths 150, 120 and 100, fully extended
    along the X axis from the origin. *)
Definition extended_arm : t :=
  Build (Arr 0 0) [seg 150 150 0; seg 120 270 0; seg 100 370 0] 370 (1 / 100).

(** The same chain with the end effector folded back to [(170, 0)]. *)
Definition stalled_arm : t :=
  Build (Arr 0 0) [seg 150 150 0; seg 120 270 0; seg 100 170 0] 370 (1 / 100).

(** One segment of length 1 along the X axis. *)
Definition single_arm : t :=
  Build (Arr 0 0) [seg 1 1 0] 1 (1 / 100).

(** Two segments of length 1, fully extended. *)
Definition straight_arm : t :=
  Build (Arr 0 0) [seg 1 1 0; seg 1 2 0] 2 (1 / 100).

(** Two segments of lengths 5 and 4, with the elbow at [(3, 4)]. *)
Definition bent_arm : t :=
  Build (Arr 0 0) [seg 5 3 4; seg 4 3 8] 9 (1 / 100).

(** [straight_arm] with both joints NaN. *)
Definition lost_arm : t :=
  Build (Arr 0 0)
    [Segment2D.Build 0 1 ArrNaN; Segment2D.Build 0 1 ArrNaN] 2 (1 / 100).

(** [bent_arm] with the end effector at [(3, 0)]. *)
Definition reached_arm : t :=
  Build (Arr 0 0) [seg 5 3 4; seg 4 3 0] 9 (1 / 100).

(** ** Frames and lines *)

(** Everything but the joint positions is the same in two solvers. *)
Definition same_frame (self self' : t) : Prop :=
  basePoint self' = basePoint self /\
  armLength self' = armLength self /\
  marginOfError self' = marginOfError self /\
  (Segment2D.length <$> segments self') = (Segment2D.length <$> segments self) /\
  (Segment2D.angle <$> segments self') = (Segment2D.angle <$> segments self).



(** ** The visualiser's arm *)

(** The chain [FabrikVisualizer.__init__] builds around the base point
    [(cx, cy)]: fully extended to the right. *)
Definition row_arm (cx cy : R) : t :=
  Build (Arr cx cy)
    [seg 150 (cx + 150) cy; seg 120 (cx + 270) cy; seg 100 (cx + 370) cy]
    370 (1 / 100).

(** [row_arm] after a sweep towards a target on its own row: the end
    effector is folded back to 170 from the base point. *)
Definition folded_arm (cx cy : R) : t :=
  Build (Arr cx cy)
    [seg 150 (cx + 150) cy; seg 120 (cx + 270) cy; seg 100 (cx + 170) cy]
    370 (1 / 100).

(** The position of the last mouse click before the first [QUIT]. *)
Fixpoint last_click (events : list FabrikVisualizer.event)
    (seen : option (Z * Z)) : option (Z * Z) :=
  match events with
  | [] => seen
  | FabrikVisualizer.QUIT :: _ => seen
  | FabrikVisualizer.MOUSEBUTTONDOWN pos :: rest => last_click rest (Some pos)
  | FabrikVisualizer.OTHER :: rest => last_click rest seen
  end.

(** ** The vectors handed to [unitVector] *)

(** The argument of the [unitVector] call in the body of the backward
    loop of [iterate], at index [i] and in the state [segs] the body
    starts from. *)
Definition backward_vector (target : array2) (segs : list Segment2D.t)
    (i : Z) : result array2 :=
  if (i =? len segs - 1)%Z then
    prev ← getitem segs (i - 1);
    Ok (vsub (Segment2D.point prev) target)
  else
    prev ← getitem segs (i - 1);
    cur ← getitem segs i;
    Ok (vsub (Segment2D.point prev) (Segment2D.point cur)).

(** The same for the body of the forward loop. *)
Definition forward_vector (base target : array2) (segs : list Segment2D.t)
    (i : Z) : result array2 :=
  if (i =? 0)%Z then
    cur ← getitem segs i;
    Ok (vsub (Segment2D.point cur) base)
  else if (i =? len segs - 1)%Z then
    prev ← getitem segs (i - 1);
    Ok (vsub (Segment2D.point prev) target)
  else
    cur ← getitem segs i;
    prev ← getitem segs (i - 1);
    Ok (vsub (Segment2D.point cur) (Segment2D.point prev)).

(** Running a loop as [for_each] does, and collecting what [vector] reads
    off the state before each execution of the body. *)
Fixpoint for_each_vectors {A I V : Type} (body : A -> I -> result A)
    (vector : A -> I -> result V) (indices : list I) (a : A)
    : result (list V) :=
  match indices with
  | [] => Ok []
  | i :: rest =>
      v ← vector a i;
      a' ← body a i;
      vs ← for_each_vectors body vector rest a';
      Ok (v :: vs)
  end.

(** Every vector handed to [unitVector] during [iterate self tx ty], in
    the order of the calls: the backward loop, then the forward loop on
    the list the backward loop leaves. *)
Definition normalized (self : t) (targetX targetY : R)
    : result (list array2) :=
  let target := Arr targetX targetY in
  vs1 ← for_each_vectors (backward_body target) (backward_vector target)
          (range_down (len (segments self) - 1)) (segments self);
  segs1 ← for_each (backward_body target)
            (range_down (len (segments self) - 1)) (segments self);
  vs2 ← for_each_vectors (forward_body (basePoint self) target)
          (forward_vector (basePoint self) target)
          (range (len segs1)) segs1;
  Ok (vs1 ++ vs2).

(** A vector that can be normalised: a pair of reals, not both zero. *)
Definition nonzero_vector (v : array2) : Prop :=
  match v with
  | Arr x y => x <> 0 \/ y <> 0
  | ArrNaN => False
  end.

(** No [unitVector] call of the sweep receives the zero vector (or NaN). *)
Definition no_zero_normalize (self : t) (targetX targetY : R) : Prop :=
  exists vs,
    normalized self targetX targetY = Ok vs /\ Forall nonzero_vector vs.

(** The vector normalised for joint [i] in the forward loop, given the
    position before it. *)
Definition forward_arg (target : array2) (n : nat) (prev : array2)
    (i : nat) (si : Segment2D.t) : array2 :=
  if bool_decide (i <> 0%nat /\ S i = n)
  then vsub prev target
  else vsub (Segment2D.point si) prev.

(** One segment of length -1, as [addSegment] creates it at angle 0, and
    the same segment after a sweep. *)
Definition reversed_arm : t :=
  Build (Arr 0 0) [seg (-1) (-1) 0] (-1) (1 / 100).

Definition flipped_arm : t :=
  Build (Arr 0 0) [seg (-1) 1 0] (-1) (1 / 100).



(** Case analysis on every integer comparison in the goal. *)
Ltac zcases :=
  repeat match goal with
  | |- context [(?a <? ?b)%Z] => destruct (Z.ltb_spec a b)
  | |- context [(?a <=? ?b)%Z] => destruct (Z.leb_spec a b)
  | |- context [(?a =? ?b)%Z] => destruct (Z.eqb_spec a b)
  end.

(** * Properties *)

(** ** Python indexing *)

Lemma index_of_nat (n i : nat) :
  (i < n)%nat -> index_of n (Z.of_nat i) = Ok i.
Proof.
  intros Hi. unfold index_of. zcases; cbn; try lia.
  by rewrite Nat2Z.id.
Qed.

Lemma index_of_pred (n i : nat) :
  (i < n)%nat -> index_of n (Z.of_nat (S i) - 1) = Ok i.
Proof.
  intros Hi. replace (Z.of_nat (S i) - 1)%Z with (Z.of_nat i) by lia.
  by apply index_of_nat.
Qed.

Lemma index_of_minus_one (n : nat) :
  index_of (S n) (-1) = Ok n.
Proof.
  unfold index_of. zcases; cbn -[Z.of_nat Z.add]; try lia.
  f_equal. lia.
Qed.

Lemma index_of_empty (k : Z) : index_of 0 k = Raise IndexError.
Proof. unfold index_of. cbn [Z.of_nat]. zcases; cbn; try done; lia. Qed.

Lemma getitem_nat {A : Type} (l : list A) (i : nat) (a : A) :
  l !! i = Some a -> getitem l (Z.of_nat i) = Ok a.
Proof.
  intros Hl. unfold getitem.
  rewrite index_of_nat by (by eapply lookup_lt_Some).
  cbn. by rewrite Hl.
Qed.

Lemma getitem_pred {A : Type} (l : list A) (i : nat) (a : A) :
  l !! i = Some a -> getitem l (Z.of_nat (S i) - 1) = Ok a.
Proof.
  intros Hl. replace (Z.of_nat (S i) - 1)%Z with (Z.of_nat i) by lia.
  by apply getitem_nat.
Qed.

Lemma getitem_last {A : Type} (l : list A) (a : A) :
  last l = Some a -> getitem l (-1) = Ok a.
Proof.
  intros Hl. unfold getitem.
  destruct l as [|b l]; [done|].
  cbn [length]. rewrite index_of_minus_one. cbn.
  rewrite last_lookup in Hl. cbn in Hl. by rewrite Hl.
Qed.

Lemma getitem_empty {A : Type} (k : Z) :
  getitem (@nil A) k = Raise IndexError.
Proof. unfold getitem. cbn [length]. by rewrite index_of_empty. Qed.

Lemma assign_point_nat (segs : list Segment2D.t) (i : nat)
    (seg : Segment2D.t) (p : array2) :
  segs !! i = Some seg ->
  assign_point segs (Z.of_nat i) p = Ok (<[i := Segment2D.set_point seg p]> segs).
Proof.
  intros Hl. unfold assign_point.
  rewrite index_of_nat by (by eapply lookup_lt_Some).
  cbn. by rewrite Hl.
Qed.

Lemma assign_point_pred (segs : list Segment2D.t) (i : nat)
    (seg : Segment2D.t) (p : array2) :
  segs !! i = Some seg ->
  assign_point segs (Z.of_nat (S i) - 1) p
  = Ok (<[i := Segment2D.set_point seg p]> segs).
Proof.
  intros Hl. replace (Z.of_nat (S i) - 1)%Z with (Z.of_nat i) by lia.
  by apply assign_point_nat.
Qed.


Lemma assign_point_Ok (segs segs' : list Segment2D.t) (k : Z) (p : array2) :
  assign_point segs k p = Ok segs' ->
  exists i sg, segs !! i = Some sg /\
               segs' = <[i := Segment2D.set_point sg p]> segs.
Proof.
  unfold assign_point.
  destruct (index_of (length segs) k) as [i|]; [|done]. cbn.
  destruct (segs !! i) as [sg|] eqn:Hl; [|done].
  intros [= <-]. by exists i, sg.
Qed.

(** ** The two sweeps of [iterate] *)

Lemma for_each_cons {A I : Type} (body : A -> I -> result A) i rest a a' :
  body a i = Ok a' ->
  for_each body (i :: rest) a = for_each body rest a'.
Proof. intros Hb. cbn. by rewrite Hb. Qed.

Lemma backward_loop (target : array2) (segs : list Segment2D.t) (k : nat)
    (l : list Segment2D.t) :
  (k < length segs)%nat -> backward_inv target segs k l ->
  exists out,
    for_each (backward_body target) (map Z.of_nat (rev (seq 1 k))) l = Ok out
    /\ backward_inv target segs 0 out.
Proof.
  unfold backward_inv. set (n := length segs).
  revert l. induction k as [|k IH]; intros l Hk (Hlen & Hsame & Hdone).
  { exists l. by split. }
  rewrite seq_S, rev_app_distr. cbn [rev app map Nat.add].
  destruct (lookup_lt_is_Some_2 segs k) as [sk Hsk]; [fold n; lia|].
  destruct (lookup_lt_is_Some_2 l (S k)) as [cur Hcur]; [lia|].
  assert (Hlk : l !! k = Some sk) by (rewrite Hsame; [done|lia]).
  set (p := backward_joint target n cur k sk).
  assert (Hbody : backward_body target l (Z.of_nat (S k))
                  = Ok (<[k := Segment2D.set_point sk p]> l)).
  { unfold backward_body, len. rewrite Hlen.
    rewrite (getitem_pred _ _ _ Hlk), (getitem_nat _ _ _ Hcur). cbn.
    subst p. unfold backward_joint, place.
    destruct (Z.eqb_spec (Z.of_nat (S k)) (Z.of_nat n - 1)) as [He|He].
    - rewrite bool_decide_eq_true_2 by lia. by apply assign_point_pred.
    - rewrite bool_decide_eq_false_2 by lia. by apply assign_point_pred. }
  rewrite (for_each_cons _ _ _ _ _ Hbody).
  apply IH; [lia|]. split; [|split].
  - by rewrite length_insert.
  - intros j Hj. rewrite list_lookup_insert_ne by lia. apply Hsame. lia.
  - intros j sj Hkj Hjn Hsj.
    destruct (decide (j = k)) as [->|Hne].
    + exists cur. rewrite list_lookup_insert_ne by lia.
      split; [done|]. rewrite list_lookup_insert_eq by lia.
      by simplify_eq.
    + destruct (Hdone j sj) as (next & Hnext & Hj); [lia|lia|done|].
      exists next. by rewrite !list_lookup_insert_ne by lia.
Qed.

Lemma forward_loop (base target : array2) (mid : list Segment2D.t)
    (m k : nat) (l : list Segment2D.t) :
  (k + m = length mid)%nat -> forward_inv base target mid k l ->
  exists out,
    for_each (forward_body base target) (map Z.of_nat (seq k m)) l = Ok out
    /\ forward_inv base target mid (length mid) out.
Proof.
  unfold forward_inv. set (n := length mid). revert k l.
  induction m as [|m IH]; intros k l Hkm (Hlen & Hsame & Hdone).
  { assert (k = n) as -> by lia. exists l. by split. }
  cbn [seq map].
  destruct (lookup_lt_is_Some_2 mid k) as [sk Hsk]; [fold n; lia|].
  assert (Hlk : l !! k = Some sk) by (rewrite Hsame; [done|lia]).
  set (p := forward_joint target n (joint_before base l k) k sk).
  assert (Hbody : forward_body base target l (Z.of_nat k)
                  = Ok (<[k := Segment2D.set_point sk p]> l)).
  { unfold forward_body, len. rewrite Hlen. subst p.
    unfold forward_joint, joint_before.
    destruct k as [|j].
    - cbn [Z.of_nat Z.eqb].
      rewrite (getitem_nat _ 0 _ Hlk). cbn.
      rewrite bool_decide_eq_false_2 by (intros []; done).
      by apply (assign_point_nat _ 0).
    - destruct (lookup_lt_is_Some_2 l j) as [prev Hprev]; [lia|].
      rewrite Hprev. cbn [from_option].
      rewrite (getitem_pred _ _ _ Hprev), (getitem_nat _ _ _ Hlk).
      destruct (Z.eqb_spec (Z.of_nat (S j)) 0) as [He|_]; [lia|].
      destruct (Z.eqb_spec (Z.of_nat (S j)) (Z.of_nat n - 1)) as [He|He].
      + rewrite bool_decide_eq_true_2 by lia. cbn.
        by apply assign_point_nat.
      + rewrite bool_decide_eq_false_2 by lia. cbn.
        by apply assign_point_nat. }
  rewrite (for_each_cons _ _ _ _ _ Hbody).
  apply IH; [lia|]. split; [|split].
  - by rewrite length_insert.
  - intros j Hj. rewrite list_lookup_insert_ne by lia. apply Hsame. lia.
  - intros j sj Hjk Hsj.
    assert (Hbefore : joint_before base (<[k := Segment2D.set_point sk p]> l) j
                      = joint_before base l j).
    { destruct j as [|j']; [done|]. cbn.
      by rewrite list_lookup_insert_ne by lia. }
    rewrite Hbefore.
    destruct (decide (j = k)) as [->|Hne].
    + rewrite list_lookup_insert_eq by lia. by simplify_eq.
    + rewrite list_lookup_insert_ne by lia. apply Hdone; [lia|done].
Qed.


(** [iterate] never raises, and its result is described by the two loop
    invariants at their exits. *)
Lemma iterate_sweeps (self : t) (tx ty : R) :
  exists mid out,
    iterate self tx ty
    = Ok (Build (basePoint self) out (armLength self) (marginOfError self))
    /\ backward_inv (Arr tx ty) (segments self) 0 mid
    /\ forward_inv (basePoint self) (Arr tx ty) mid (length mid) out.
Proof.
  set (segs := segments self).
  assert (Hback : exists mid,
    for_each (backward_body (Arr tx ty)) (range_down (len segs - 1)) segs
    = Ok mid /\ backward_inv (Arr tx ty) segs 0 mid).
  { destruct segs as [|s0 rest] eqn:Hsegs.
    - exists []. split; [done|]. split; [done|]. split; [done|].
      intros j sj _ Hj. cbn in Hj. lia.
    - unfold range_down, len.
      replace (Z.to_nat (Z.of_nat (length (s0 :: rest)) - 1))
        with (length rest) by (cbn [length]; lia).
      apply backward_loop; [cbn [length]; lia|].
      split; [done|]. split; [done|].
      intros j sj Hj1 Hj2. cbn [length] in *. lia. }
  destruct Hback as (mid & Hmid & Hbinv).
  destruct (forward_loop (basePoint self) (Arr tx ty) mid (length mid) 0 mid)
    as (out & Hout & Hfinv); [done| |].
  { split; [done|]. split; [done|]. intros j sj Hj. lia. }
  exists mid, out. split; [|done].
  unfold iterate. fold segs. rewrite Hmid. cbn.
  unfold range, len. rewrite Nat2Z.id, Hout. done.
Qed.

Lemma backward_sweep (target : array2) (segs : list Segment2D.t) :
  exists mid,
    for_each (backward_body target) (range_down (len segs - 1)) segs = Ok mid
    /\ backward_inv target segs 0 mid.
Proof.
  destruct segs as [|s0 rest] eqn:Hsegs.
  - exists []. split; [done|]. split; [done|]. split; [done|].
    intros j sj _ Hj. cbn in Hj. lia.
  - unfold range_down, len.
    replace (Z.to_nat (Z.of_nat (length (s0 :: rest)) - 1))
      with (length rest) by (cbn [length]; lia).
    apply backward_loop; [cbn [length]; lia|].
    split; [done|]. split; [done|].
    intros j sj Hj1 Hj2. cbn [length] in *. lia.
Qed.

(** What one call of [iterate] leaves behind, joint by joint: the base
    point, arm length and margin are untouched, every segment keeps its
    angle and length, and its joint is the forward-sweep value computed
    from its predecessor in the result. *)
Lemma iterate_joints (self self' : t) (tx ty : R) :
  iterate self tx ty = Ok self' ->
  basePoint self' = basePoint self /\
  armLength self' = armLength self /\
  marginOfError self' = marginOfError self /\
  length (segments self') = length (segments self) /\
  forall i si, segments self !! i = Some si ->
    exists mi,
      Segment2D.angle mi = Segment2D.angle si /\
      Segment2D.length mi = Segment2D.length si /\
      segments self' !! i
      = Some (Segment2D.set_point mi
                (forward_joint (Arr tx ty) (length (segments self))
                   (joint_before (basePoint self) (segments self') i) i mi)).
Proof.
  intros Hit.
  destruct (iterate_sweeps self tx ty)
    as (mid & out & Hok & (Hlm & Hsame & Hback) & (Hlo & _ & Hfwd)).
  rewrite Hok in Hit. injection Hit as <-. cbn [basePoint armLength
    marginOfError segments].
  cbn zeta in *. rewrite Hlm in Hlo.
  repeat (split; [done|]).
  intros i si Hsi.
  assert (Hi : (i < length (segments self))%nat) by (by eapply lookup_lt_Some).
  assert (Hmi : exists mi, mid !! i = Some mi /\
            Segment2D.angle mi = Segment2D.angle si /\
            Segment2D.length mi = Segment2D.length si).
  { destruct (decide (S i < length (segments self))%nat) as [Hlt|Hge].
    - destruct (Hback i si) as (next & _ & Hm); [lia|done|done|].
      eexists. split; [exact Hm|]. done.
    - exists si. rewrite Hsame by lia. done. }
  destruct Hmi as (mi & Hmi & Ha & Hl).
  exists mi. repeat (split; [done|]).
  rewrite <- Hlm. apply Hfwd; [lia|done].
Qed.

Lemma iterate_total (self : t) (tx ty : R) :
  exists self', iterate self tx ty = Ok self'.
Proof.
  destruct (iterate_sweeps self tx ty) as (mid & out & Hok & _).
  eexists. exact Hok.
Qed.

(** ** Real arithmetic of the projections *)

Lemma norm_sq_pos (x y : R) : 0 <= x * x + y * y.
Proof. nra. Qed.

Lemma sqrt_sq_eq_0 (x y : R) : sqrt (x * x + y * y) = 0 -> x = 0 /\ y = 0.
Proof.
  intros H. apply sqrt_eq_0 in H; [|apply norm_sq_pos]. split; nra.
Qed.

(** [unitVector] yields NaN exactly on NaN and on the zero vector. *)
Lemma unitVector_nan (v : array2) :
  unitVector v = ArrNaN <-> v = ArrNaN \/ v = Arr 0 0.
Proof.
  destruct v as [x y|]; cbn; [|by split; [left|]].
  destruct (Req_dec_T _ 0) as [Hz|Hnz].
  - split; [|done]. intros _. right.
    destruct (sqrt_sq_eq_0 _ _ Hz) as [-> ->]. done.
  - split; [done|]. intros [?|[= -> ->]]; [done|].
    exfalso. apply Hnz. replace (0 * 0 + 0 * 0) with 0 by lra.
    apply sqrt_0.
Qed.

(** The result of [unitVector], when it is not NaN, has norm one. *)
Lemma unitVector_norm (v : array2) (x y : R) :
  unitVector v = Arr x y -> x * x + y * y = 1.
Proof.
  destruct v as [vx vy|]; cbn; [|done].
  destruct (Req_dec_T _ 0) as [Hz|Hnz]; [done|].
  intros [= <- <-].
  pose proof (sqrt_sqrt _ (norm_sq_pos vx vy)) as Hsq.
  set (d := sqrt (vx * vx + vy * vy)) in *.
  replace (vx / d * (vx / d) + vy / d * (vy / d))
    with ((vx * vx + vy * vy) / (d * d)) by (field; done).
  rewrite Hsq. field. rewrite <- Hsq. nra.
Qed.

Lemma sqrt_scaled_unit (x y l : R) :
  x * x + y * y = 1 -> sqrt (x * l * (x * l) + y * l * (y * l)) = Rabs l.
Proof.
  intros Hu.
  replace (x * l * (x * l) + y * l * (y * l)) with (Rsqr l)
    by (unfold Rsqr; nra).
  apply sqrt_Rsqr_abs.
Qed.

(** [place p anchor l], when it is not NaN, lies at distance [|l|] from
    [anchor], which is then not NaN either. *)
Lemma place_distance (p anchor : array2) (l : R) :
  place p anchor l <> ArrNaN ->
  anchor <> ArrNaN /\ norm (vsub (place p anchor l) anchor) = Num (Rabs l).
Proof.
  unfold place. intros Hfin.
  destruct (unitVector (vsub p anchor)) as [ux uy|] eqn:Hu; [|done].
  destruct anchor as [ax ay|]; [|done]. split; [done|].
  cbn. f_equal.
  replace (ux * l + ax - ax) with (ux * l) by lra.
  replace (uy * l + ay - ay) with (uy * l) by lra.
  apply sqrt_scaled_unit. by eapply unitVector_norm.
Qed.

(** Likewise for [pull prev target l] and [prev]. *)
Lemma pull_distance (prev target : array2) (l : R) :
  pull prev target l <> ArrNaN ->
  prev <> ArrNaN /\ norm (vsub (pull prev target l) prev) = Num (Rabs l).
Proof.
  unfold pull. intros Hfin.
  destruct (unitVector (vsub prev target)) as [ux uy|] eqn:Hu; [|done].
  destruct prev as [px py|]; [|done]. split; [done|].
  cbn. f_equal.
  replace (ux * l * -1 + px - px) with (ux * -l) by lra.
  replace (uy * l * -1 + py - py) with (uy * -l) by lra.
  rewrite <- (Rabs_Ropp l).
  apply sqrt_scaled_unit. by eapply unitVector_norm.
Qed.

(** When the projections are NaN: exactly when an input already is, or
    the vector handed to [unitVector] is the zero vector. *)
Lemma place_nan (p anchor : array2) (l : R) :
  place p anchor l = ArrNaN <->
  p = ArrNaN \/ anchor = ArrNaN \/ vsub p anchor = Arr 0 0.
Proof.
  unfold place. split.
  - intros Hnan.
    destruct (unitVector (vsub p anchor)) as [ux uy|] eqn:Hu.
    + destruct anchor; [done|tauto].
    + apply unitVector_nan in Hu as [Hs|Hz]; [|tauto].
      destruct p, anchor; (done || tauto).
  - intros [->|[->|Hz]]; [done|by destruct (unitVector _)|].
    assert (Hu : unitVector (vsub p anchor) = ArrNaN).
    { apply unitVector_nan. by right. }
    by rewrite Hu.
Qed.

Lemma pull_nan (prev target : array2) (l : R) :
  pull prev target l = ArrNaN <->
  prev = ArrNaN \/ target = ArrNaN \/ vsub prev target = Arr 0 0.
Proof.
  unfold pull. split.
  - intros Hnan.
    destruct (unitVector (vsub prev target)) as [ux uy|] eqn:Hu.
    + destruct prev; [done|tauto].
    + apply unitVector_nan in Hu as [Hs|Hz]; [|tauto].
      destruct prev, target; (done || tauto).
  - intros [->|[->|Hz]]; [done|by destruct prev|].
    assert (Hu : unitVector (vsub prev target) = ArrNaN).
    { apply unitVector_nan. by right. }
    by rewrite Hu.
Qed.

Lemma forward_joint_distance (target : array2) (n : nat) (prev : array2)
    (i : nat) (si : Segment2D.t) :
  forward_joint target n prev i si <> ArrNaN ->
  prev <> ArrNaN /\
  norm (vsub (forward_joint target n prev i si) prev)
  = Num (Rabs (Segment2D.length si)).
Proof.
  unfold forward_joint. case_bool_decide.
  - apply pull_distance.
  - apply place_distance.
Qed.

(** ** Consequences for one sweep *)

Lemma joint_positions_before (self : t) (i : nat) (prev : array2) :
  (i < length (segments self))%nat ->
  get_joint_positions self !! i = Some prev ->
  prev = joint_before (basePoint self) (segments self) i.
Proof.
  unfold get_joint_positions. intros Hi Hp.
  destruct i as [|j]; [by injection Hp as <-|].
  change ((Segment2D.point <$> segments self) !! j = Some prev) in Hp.
  rewrite list_lookup_fmap in Hp. cbn [joint_before].
  destruct (segments self !! j); cbn in *; by simplify_eq.
Qed.

Lemma iterate_lengths (self self' : t) (tx ty : R) :
  iterate self tx ty = Ok self' ->
  (Segment2D.length <$> segments self')
  = (Segment2D.length <$> segments self).
Proof.
  intros Hit.
  destruct (iterate_joints _ _ _ _ Hit) as (_ & _ & _ & Hlen & Hj).
  apply list_eq. intros i. rewrite !list_lookup_fmap.
  destruct (segments self !! i) as [si|] eqn:Hsi.
  - destruct (Hj i si Hsi) as (mi & _ & Hl & ->). cbn. by rewrite Hl.
  - rewrite (lookup_ge_None_2 (segments self') i); [done|].
    rewrite Hlen. by apply lookup_ge_None_1.
Qed.

(** After a sweep every joint that is not NaN sits at distance [|length|]
    from its predecessor, and that predecessor is not NaN. *)
Lemma iterate_joint_distance (self self' : t) (tx ty : R) (i : nat)
    (seg : Segment2D.t) :
  iterate self tx ty = Ok self' ->
  segments self' !! i = Some seg ->
  Segment2D.point seg <> ArrNaN ->
  joint_before (basePoint self') (segments self') i <> ArrNaN /\
  norm (vsub (Segment2D.point seg)
             (joint_before (basePoint self') (segments self') i))
  = Num (Rabs (Segment2D.length seg)).
Proof.
  intros Hit Hseg Hfin.
  destruct (iterate_joints _ _ _ _ Hit) as (Hb & _ & _ & Hlen & Hj).
  destruct (lookup_lt_is_Some_2 (segments self) i) as [si Hsi].
  { rewrite <- Hlen. by eapply lookup_lt_Some. }
  destruct (Hj i si Hsi) as (mi & _ & Hl & Hout).
  rewrite Hseg in Hout. injection Hout as ->. cbn in *.
  rewrite Hb. by apply forward_joint_distance.
Qed.

(** If the end effector is not NaN after a sweep, no joint is. *)
Lemma iterate_all_finite (self self' : t) (tx ty : R) (lst : Segment2D.t) :
  iterate self tx ty = Ok self' ->
  last (segments self') = Some lst ->
  Segment2D.point lst <> ArrNaN ->
  forall i seg, segments self' !! i = Some seg ->
    Segment2D.point seg <> ArrNaN.
Proof.
  intros Hit Hlast Hfin.
  rewrite last_lookup in Hlast.
  assert (Hdown : forall k i seg,
    (i + k = pred (length (segments self')))%nat ->
    segments self' !! i = Some seg -> Segment2D.point seg <> ArrNaN).
  { induction k as [|k IH]; intros i seg Hik Hseg.
    - rewrite Nat.add_0_r in Hik. subst i. by simplify_eq.
    - destruct (lookup_lt_is_Some_2 (segments self') (S i)) as [nxt Hnxt].
      { lia. }
      assert (Hn : Segment2D.point nxt <> ArrNaN).
      { apply (IH (S i)); [lia|done]. }
      destruct (iterate_joint_distance _ _ _ _ _ _ Hit Hnxt Hn) as [Hb _].
      cbn in Hb. by rewrite Hseg in Hb. }
  intros i seg Hseg.
  apply (Hdown (pred (length (segments self')) - i)%nat i); [|done].
  apply lookup_lt_Some in Hseg. lia.
Qed.

(** ** The convergence loop *)

Lemma inMarginOfError_true (self : t) (tx ty : R) :
  inMarginOfError self tx ty = Ok true ->
  exists lst x y,
    last (segments self) = Some lst /\
    Segment2D.point lst = Arr x y /\
    sqrt ((x - tx) * (x - tx) + (y - ty) * (y - ty)) < marginOfError self.
Proof.
  unfold inMarginOfError. intros Hin.
  destruct (last (segments self)) as [lst|] eqn:Hlast.
  - rewrite (getitem_last _ _ Hlast) in Hin. cbn in Hin.
    destruct (Segment2D.point lst) as [x y|] eqn:Hp; cbn in Hin; [|done].
    destruct (Rlt_dec _ _) as [Hlt|]; [|done].
    by exists lst, x, y.
  - apply last_None in Hlast. rewrite Hlast, getitem_empty in Hin. done.
Qed.

(** When the loop returns, the returned solver is within margin, and it is
    either the solver the loop started from or the result of a sweep on a
    solver with the same segment lengths. *)
Lemma converge_returns (fuel : nat) (self self' : t) (tx ty : R) :
  converge fuel self tx ty = Some (Ok self') ->
  inMarginOfError self' tx ty = Ok true /\
  (self' = self \/
   exists before,
     iterate before tx ty = Ok self' /\
     (Segment2D.length <$> segments before)
     = (Segment2D.length <$> segments self)).
Proof.
  revert self. induction fuel as [|fuel IH]; intros self Hc; [done|].
  cbn in Hc.
  destruct (inMarginOfError self tx ty) as [[]|] eqn:Hin; [| |done].
  - injection Hc as <-. split; [done|by left].
  - destruct (iterate self tx ty) as [nxt|] eqn:Hit; [|done].
    destruct (IH _ Hc) as [Hm Hfrom]. split; [done|]. right.
    destruct Hfrom as [->|(before & Hb & Hl)].
    + by exists self.
    + exists before. split; [done|].
      rewrite Hl. by eapply iterate_lengths.
Qed.

Lemma compute_returns (fuel : nat) (self self' : t) (tx ty : R) (b : bool) :
  compute fuel self tx ty = Some (Ok (b, self')) ->
  (b = false /\ self' = self /\ isReachable self tx ty = false) \/
  (b = true /\ isReachable self tx ty = true /\
   converge fuel self tx ty = Some (Ok self')).
Proof.
  unfold compute.
  destruct (isReachable self tx ty); cbn.
  - destruct (converge fuel self tx ty) as [[s|e]|]; [|done..].
    intros [= <- <-]. by right.
  - intros [= <- <-]. by left.
Qed.

Lemma nonneg_lengths (l l' : list Segment2D.t) :
  (Segment2D.length <$> l') = (Segment2D.length <$> l) ->
  Forall (fun seg => 0 <= Segment2D.length seg) l ->
  Forall (fun seg => 0 <= Segment2D.length seg) l'.
Proof.
  intros Heq Hl. rewrite Forall_lookup in Hl. apply Forall_lookup.
  intros i seg Hseg.
  assert (Hi : (Segment2D.length <$> l) !! i = Some (Segment2D.length seg)).
  { by rewrite <- Heq, list_lookup_fmap, Hseg. }
  rewrite list_lookup_fmap in Hi.
  destruct (l !! i) as [si|] eqn:Hsi; [|done].
  injection Hi as <-. by eapply Hl.
Qed.

(** ** The vectors that are normalised *)

(** [iterate] is its two loops. *)
Lemma iterate_loops (self : t) (tx ty : R) :
  exists mid out,
    for_each (backward_body (Arr tx ty))
      (range_down (len (segments self) - 1)) (segments self) = Ok mid /\
    for_each (forward_body (basePoint self) (Arr tx ty))
      (range (len mid)) mid = Ok out /\
    iterate self tx ty
    = Ok (Build (basePoint self) out (armLength self) (marginOfError self)) /\
    backward_inv (Arr tx ty) (segments self) 0 mid /\
    forward_inv (basePoint self) (Arr tx ty) mid (length mid) out.
Proof.
  destruct (backward_sweep (Arr tx ty) (segments self)) as (mid & Hmid & Hb).
  destruct (forward_loop (basePoint self) (Arr tx ty) mid (length mid) 0 mid)
    as (out & Hout & Hf); [done| |].
  { split; [done|]. split; [done|]. intros j sj Hj. lia. }
  assert (Hrange : range (len mid) = map Z.of_nat (seq 0 (length mid))).
  { unfold range, len. by rewrite Nat2Z.id. }
  exists mid, out. rewrite Hrange. repeat (split; [done|]). split; [|done].
  unfold iterate. rewrite Hmid. cbn. by rewrite Hrange, Hout.
Qed.

(** Each loop body computes the new joint from [unitVector] of the vector
    that [backward_vector], respectively [forward_vector], reads off. *)
Lemma backward_body_normalizes (target : array2)
    (segs segs' : list Segment2D.t) (i : Z) :
  backward_body target segs i = Ok segs' ->
  exists v j sj l anchor,
    backward_vector target segs i = Ok v /\
    segs !! j = Some sj /\
    segs' = <[j := Segment2D.set_point sj
                      (vadd (vscale (unitVector v) l) anchor)]> segs.
Proof.
  unfold backward_body, backward_vector.
  destruct (getitem segs (i - 1)) as [prev|] eqn:Hprev;
    [|by destruct (_ =? _)%Z].
  destruct (getitem segs i) as [cur|] eqn:Hcur; [|by destruct (_ =? _)%Z].
  destruct (_ =? _)%Z; cbn; intros Has;
    destruct (assign_point_Ok _ _ _ _ Has) as (j & sj & Hsj & ->);
    by eexists _, j, sj, _, _.
Qed.

Lemma forward_body_normalizes (base target : array2)
    (segs segs' : list Segment2D.t) (i : Z) :
  forward_body base target segs i = Ok segs' ->
  exists v j sj l anchor,
    forward_vector base target segs i = Ok v /\
    segs !! j = Some sj /\
    (segs' = <[j := Segment2D.set_point sj
                       (vadd (vscale (unitVector v) l) anchor)]> segs \/
     segs' = <[j := Segment2D.set_point sj
                       (vadd (vscale (vscale (unitVector v) l) (-1)) anchor)]>
               segs).
Proof.
  unfold forward_body, forward_vector.
  destruct (i =? 0)%Z.
  - destruct (getitem segs i) as [cur|] eqn:Hcur; [|done]. cbn. intros Has.
    destruct (assign_point_Ok _ _ _ _ Has) as (j & sj & Hsj & ->).
    eexists _, j, sj, _, _. split; [done|]. split; [done|]. by left.
  - destruct (getitem segs (i - 1)) as [prev|] eqn:Hprev;
      [|by destruct (_ =? _)%Z; [|destruct (getitem segs i)]].
    destruct (getitem segs i) as [cur|] eqn:Hcur; [|by destruct (_ =? _)%Z].
    destruct (_ =? _)%Z; cbn; intros Has;
      destruct (assign_point_Ok _ _ _ _ Has) as (j & sj & Hsj & ->);
      eexists _, j, sj, _, _; (split; [done|]); (split; [done|]).
    + by right.
    + by left.
Qed.

Lemma for_each_vectors_total {A I V : Type} (body : A -> I -> result A)
    (vector : A -> I -> result V) (indices : list I) (a a' : A) :
  (forall x i x', body x i = Ok x' -> exists v, vector x i = Ok v) ->
  for_each body indices a = Ok a' ->
  exists vs, for_each_vectors body vector indices a = Ok vs.
Proof.
  intros Hv. revert a.
  induction indices as [|i rest IH]; intros a Hfor; [by exists []|].
  cbn in Hfor. destruct (body a i) as [x|] eqn:Hb; [|done]. cbn in Hfor.
  destruct (Hv _ _ _ Hb) as [v Hvec]. destruct (IH _ Hfor) as [vs Hvs].
  exists (v :: vs). cbn. rewrite Hvec. cbn. rewrite Hb. cbn. by rewrite Hvs.
Qed.

(** The list of normalised vectors always exists: [normalized] never
    raises. *)
Lemma normalized_total (self : t) (tx ty : R) :
  exists vs, normalized self tx ty = Ok vs.
Proof.
  destruct (iterate_loops self tx ty) as (mid & out & Hmid & Hout & _).
  assert (Hbv : forall x i x',
    backward_body (Arr tx ty) x i = Ok x' ->
    exists v, backward_vector (Arr tx ty) x i = Ok v).
  { intros x i x' Hb.
    destruct (backward_body_normalizes _ _ _ _ Hb)
      as (v & _ & _ & _ & _ & Hv & _). by exists v. }
  assert (Hfv : forall x i x',
    forward_body (basePoint self) (Arr tx ty) x i = Ok x' ->
    exists v, forward_vector (basePoint self) (Arr tx ty) x i = Ok v).
  { intros x i x' Hb.
    destruct (forward_body_normalizes _ _ _ _ _ Hb)
      as (v & _ & _ & _ & _ & Hv & _). by exists v. }
  destruct (for_each_vectors_total _ _ _ _ _ Hbv Hmid) as [vs1 Hvs1].
  destruct (for_each_vectors_total _ _ _ _ _ Hfv Hout) as [vs2 Hvs2].
  exists (vs1 ++ vs2). unfold normalized. rewrite Hvs1. cbn.
  rewrite Hmid. cbn. by rewrite Hvs2.
Qed.

Lemma forward_body_step (base target : array2) (mid l : list Segment2D.t)
    (k : nat) (sk : Segment2D.t) :
  forward_inv base target mid k l ->
  mid !! k = Some sk ->
  let p := forward_joint target (length mid) (joint_before base l k) k sk in
  forward_body base target l (Z.of_nat k)
  = Ok (<[k := Segment2D.set_point sk p]> l) /\
  forward_vector base target l (Z.of_nat k)
  = Ok (forward_arg target (length mid) (joint_before base l k) k sk) /\
  forward_inv base target mid (S k) (<[k := Segment2D.set_point sk p]> l).
Proof.
  intros Hinv Hsk p. unfold forward_inv in *. cbv zeta in *.
  destruct Hinv as (Hlen & Hsame & Hdone).
  set (n := length mid) in *.
  assert (Hk : (k < n)%nat) by (by eapply lookup_lt_Some).
  assert (Hlk : l !! k = Some sk) by (rewrite Hsame; [done|lia]).
  assert (Hbody : forward_body base target l (Z.of_nat k)
                  = Ok (<[k := Segment2D.set_point sk p]> l)
                  /\ forward_vector base target l (Z.of_nat k)
                     = Ok (forward_arg target n (joint_before base l k) k sk)).
  { unfold forward_body, forward_vector, len. rewrite Hlen. subst p.
    unfold forward_joint, forward_arg, joint_before.
    destruct k as [|j].
    - cbn [Z.of_nat Z.eqb].
      rewrite (getitem_nat _ 0 _ Hlk). cbn.
      rewrite !bool_decide_eq_false_2 by (intros []; done).
      split; [|done]. by apply (assign_point_nat _ 0).
    - destruct (lookup_lt_is_Some_2 l j) as [prev Hprev]; [lia|].
      rewrite Hprev. cbn [from_option].
      rewrite (getitem_pred _ _ _ Hprev), (getitem_nat _ _ _ Hlk).
      destruct (Z.eqb_spec (Z.of_nat (S j)) 0) as [He|_]; [lia|].
      destruct (Z.eqb_spec (Z.of_nat (S j)) (Z.of_nat n - 1)) as [He|He].
      + rewrite !bool_decide_eq_true_2 by lia. cbn.
        split; [|done]. by apply assign_point_nat.
      + rewrite !bool_decide_eq_false_2 by lia. cbn.
        split; [|done]. by apply assign_point_nat. }
  split; [apply Hbody|]. split; [apply Hbody|]. split; [|split].
  - by rewrite length_insert.
  - intros j Hj. rewrite list_lookup_insert_ne by lia. apply Hsame. lia.
  - intros j sj Hjk Hsj.
    assert (Hbefore : joint_before base (<[k := Segment2D.set_point sk p]> l) j
                      = joint_before base l j).
    { destruct j as [|j']; [done|]. cbn.
      by rewrite list_lookup_insert_ne by lia. }
    rewrite Hbefore.
    destruct (decide (j = k)) as [->|Hne].
    + rewrite list_lookup_insert_eq by lia. by simplify_eq.
    + rewrite list_lookup_insert_ne by lia. apply Hdone; [lia|done].
Qed.

(** The forward loop together with the vectors it normalises: the vector
    for joint [i] is the difference between the joint the backward loop
    left and the position before it in the result (between that position
    and the target, for the end effector). *)
Lemma forward_loop_vectors (base target : array2) (mid : list Segment2D.t)
    (m k : nat) (l : list Segment2D.t) :
  (k + m = length mid)%nat -> forward_inv base target mid k l ->
  exists out vs,
    for_each (forward_body base target) (map Z.of_nat (seq k m)) l = Ok out /\
    for_each_vectors (forward_body base target) (forward_vector base target)
      (map Z.of_nat (seq k m)) l = Ok vs /\
    (forall j, (j < k)%nat -> out !! j = l !! j) /\
    forall j mj, (j < m)%nat -> mid !! (k + j)%nat = Some mj ->
      vs !! j = Some (forward_arg target (length mid)
                        (joint_before base out (k + j)) (k + j) mj).
Proof.
  revert k l. induction m as [|m IH]; intros k l Hkm Hinv.
  { exists l, []. split; [done|]. split; [done|]. split; [done|].
    intros j mj Hj. lia. }
  destruct (lookup_lt_is_Some_2 mid k) as [sk Hsk]; [lia|].
  destruct (forward_body_step _ _ _ _ _ _ Hinv Hsk) as (Hbody & Hvec & Hinv').
  cbv zeta in Hbody, Hinv'.
  set (l' := <[k := Segment2D.set_point sk
                  (forward_joint target (length mid) (joint_before base l k)
                     k sk)]> l) in *.
  destruct (IH (S k) l') as (out & vs & Hout & Hvs & Hframe & Hargs);
    [lia|done|].
  assert (Hbefore : joint_before base out k = joint_before base l k).
  { destruct k as [|k']; [done|]. cbn.
    rewrite Hframe by lia. unfold l'.
    by rewrite list_lookup_insert_ne by lia. }
  exists out, (forward_arg target (length mid) (joint_before base l k) k sk
               :: vs).
  cbn [seq map for_each for_each_vectors].
  rewrite Hbody, Hvec. cbn. rewrite Hout, Hvs. cbn.
  split; [done|]. split; [done|]. split.
  - intros j Hj. rewrite Hframe by lia. unfold l'.
    by rewrite list_lookup_insert_ne by lia.
  - intros j mj Hj Hmj. destruct j as [|j'].
    + rewrite Nat.add_0_r in *. rewrite Hsk in Hmj. injection Hmj as <-.
      cbn. by rewrite Hbefore.
    + cbn. replace (k + S j')%nat with (S k + j')%nat in * by lia.
      apply Hargs; [lia|done].
Qed.

Lemma nonzero_vector_defined (v : array2) :
  nonzero_vector v -> v <> ArrNaN /\ v <> Arr 0 0.
Proof.
  destruct v as [x y|]; [|done]. cbn. intros Hnz. split; [done|].
  intros [= -> ->]. by destruct Hnz.
Qed.

(** A joint computed from a vector that can be normalised has a
    position. *)
Lemma forward_joint_finite (target : array2) (n : nat) (prev : array2)
    (i : nat) (si : Segment2D.t) :
  nonzero_vector (forward_arg target n prev i si) ->
  forward_joint target n prev i si <> ArrNaN.
Proof.
  unfold forward_arg, forward_joint. intros Hnz.
  apply nonzero_vector_defined in Hnz as [Hfin Hnz].
  case_bool_decide.
  - rewrite pull_nan. intros [->|[->|Hz]]; [done| |done].
    by destruct prev.
  - rewrite place_nan. intros [Hp|[->|Hz]]; [|by destruct (Segment2D.point si)|done].
    by rewrite Hp in Hfin.
Qed.

(** ** Length preservation *)

(** C1 (as amended).  Length preservation.  For a chain with at least one
    segment: if every vector handed to [unitVector] during [iterate] is a
    nonzero vector (not the zero vector, and not NaN), then [iterate]
    returns, keeps every segment's length, and leaves every joint with a
    position whose distance from its predecessor (the base point for the
    first segment; the predecessor is the previous entry of
    [get_joint_positions]) is the absolute value of the segment's length,
    which is the length itself when it is not negative.  The same holds
    after any [compute] call that returns a solver different from the one
    it was given: the end effector is then within the margin, so every
    joint has a position. *)
Theorem length_preservation (self : t) (tx ty : R) :
  segments self <> [] ->
  (no_zero_normalize self tx ty ->
   exists self',
     iterate self tx ty = Ok self' /\
     (Segment2D.length <$> segments self')
     = (Segment2D.length <$> segments self) /\
     forall i seg prev,
       segments self' !! i = Some seg ->
       get_joint_positions self' !! i = Some prev ->
       Segment2D.point seg <> ArrNaN /\
       norm (vsub (Segment2D.point seg) prev)
       = Num (Rabs (Segment2D.length seg))) /\
  (forall fuel b self',
     compute fuel self tx ty = Some (Ok (b, self')) ->
     self' <> self ->
     forall i seg prev,
       segments self' !! i = Some seg ->
       get_joint_positions self' !! i = Some prev ->
       Segment2D.point seg <> ArrNaN /\
       norm (vsub (Segment2D.point seg) prev)
       = Num (Rabs (Segment2D.length seg))).
Proof.
  intros _. split.
  - intros (vs & Hnorm & Hall).
    destruct (iterate_loops self tx ty)
      as (mid & out & Hmid & Hout & Hit & _ & (Hlo & _ & Hfwd)).
    cbn zeta in Hlo, Hfwd.
    assert (Hrange : range (len mid) = map Z.of_nat (seq 0 (length mid))).
    { unfold range, len. by rewrite Nat2Z.id. }
    destruct (forward_loop_vectors (basePoint self) (Arr tx ty) mid
                (length mid) 0 mid)
      as (out' & vs2 & Hout' & Hvs2 & _ & Hargs); [done| |].
    { split; [done|]. split; [done|]. intros j sj Hj. lia. }
    rewrite Hrange, Hout' in Hout. injection Hout as ->.
    unfold normalized in Hnorm.
    destruct (for_each_vectors (backward_body _) _ _ _) as [vs1|]; [|done].
    cbn in Hnorm. rewrite Hmid in Hnorm. cbn in Hnorm.
    rewrite Hrange, Hvs2 in Hnorm. cbn in Hnorm. injection Hnorm as <-.
    apply Forall_app in Hall as [_ Hall2].
    eexists. split; [exact Hit|]. split; [by eapply iterate_lengths|].
    cbn [segments]. intros i seg prev Hseg Hprev.
    apply joint_positions_before in Hprev; [|by eapply lookup_lt_Some].
    cbn [basePoint segments] in Hprev. subst prev.
    destruct (lookup_lt_is_Some_2 mid i) as [mi Hmi].
    { rewrite <- Hlo. by eapply lookup_lt_Some. }
    pose proof (Hfwd i mi ltac:(by eapply lookup_lt_Some) Hmi) as Hi.
    rewrite Hseg in Hi. injection Hi as ->.
    cbn [Segment2D.point Segment2D.set_point Segment2D.length].
    assert (Hnz : nonzero_vector
              (forward_arg (Arr tx ty) (length mid)
                 (joint_before (basePoint self) out i) i mi)).
    { rewrite Forall_lookup in Hall2. apply (Hall2 i).
      apply (Hargs i mi); [by eapply lookup_lt_Some|done]. }
    apply forward_joint_finite in Hnz.
    split; [done|].
    by destruct (forward_joint_distance _ _ _ _ _ Hnz) as [_ ->].
  - intros fuel b self' Hc Hne i seg prev Hseg Hprev.
    destruct (compute_returns _ _ _ _ _ _ Hc) as [(_ & ? & _)|(_ & _ & Hcv)];
      [done|].
    destruct (converge_returns _ _ _ _ _ Hcv)
      as [Hin [?|(before & Hit & Hl)]]; [done|].
    destruct (inMarginOfError_true _ _ _ Hin) as (lst & x & y & Hlast & Hp & _).
    assert (Hfin : Segment2D.point seg <> ArrNaN).
    { eapply (iterate_all_finite _ _ _ _ lst Hit Hlast); [by rewrite Hp|].
      exact Hseg. }
    split; [done|].
    apply joint_positions_before in Hprev; [|by eapply lookup_lt_Some].
    subst prev.
    by destruct (iterate_joint_distance _ _ _ _ _ _ Hit Hseg Hfin) as [_ ->].
Qed.

(** ** Closed forms for short chains *)

Lemma iterate_one (base : array2) (s0 : Segment2D.t) (arm margin tx ty : R) :
  iterate (Build base [s0] arm margin) tx ty
  = Ok (Build base
          [Segment2D.set_point s0
             (place (Segment2D.point s0) base (Segment2D.length s0))]
          arm margin).
Proof. reflexivity. Qed.

Lemma iterate_two (base : array2) (s0 s1 : Segment2D.t)
    (arm margin tx ty : R) :
  let target := Arr tx ty in
  let b0 := place (Segment2D.point s0) target (Segment2D.length s1) in
  let f0 := place b0 base (Segment2D.length s0) in
  iterate (Build base [s0; s1] arm margin) tx ty
  = Ok (Build base
          [Segment2D.set_point s0 f0;
           Segment2D.set_point s1 (pull f0 target (Segment2D.length s1))]
          arm margin).
Proof. reflexivity. Qed.

Lemma iterate_three (base : array2) (s0 s1 s2 : Segment2D.t)
    (arm margin tx ty : R) :
  let target := Arr tx ty in
  let b1 := place (Segment2D.point s1) target (Segment2D.length s2) in
  let b0 := place (Segment2D.point s0) b1 (Segment2D.length s1) in
  let f0 := place b0 base (Segment2D.length s0) in
  let f1 := place b1 f0 (Segment2D.length s1) in
  iterate (Build base [s0; s1; s2] arm margin) tx ty
  = Ok (Build base
          [Segment2D.set_point s0 f0;
           Segment2D.set_point s1 f1;
           Segment2D.set_point s2 (pull f1 target (Segment2D.length s2))]
          arm margin).
Proof. reflexivity. Qed.

(** Evaluation of the projections at given coordinates; [d] is the norm of
    the vector that is normalised. *)
Lemma unitVector_eval (vx vy d : R) :
  0 < d -> vx * vx + vy * vy = d * d ->
  unitVector (Arr vx vy) = Arr (vx / d) (vy / d).
Proof.
  intros Hd Hsq. cbn. rewrite Hsq, sqrt_square by lra.
  destruct (Req_dec_T d 0); [lra|done].
Qed.

Lemma place_eval (px py ax ay l d x y : R) :
  0 < d -> (px - ax) * (px - ax) + (py - ay) * (py - ay) = d * d ->
  x = (px - ax) / d * l + ax -> y = (py - ay) / d * l + ay ->
  place (Arr px py) (Arr ax ay) l = Arr x y.
Proof.
  intros Hd Hsq -> ->. unfold place. cbn [vsub].
  by rewrite (unitVector_eval _ _ d).
Qed.

Lemma pull_eval (px py tx ty l d x y : R) :
  0 < d -> (px - tx) * (px - tx) + (py - ty) * (py - ty) = d * d ->
  x = (px - tx) / d * l * -1 + px -> y = (py - ty) / d * l * -1 + py ->
  pull (Arr px py) (Arr tx ty) l = Arr x y.
Proof.
  intros Hd Hsq -> ->. unfold pull. cbn [vsub].
  by rewrite (unitVector_eval _ _ d).
Qed.

Lemma flt_true (x r : R) : x < r -> flt (Num x) r = true.
Proof. intros H. cbn. by destruct (Rlt_dec x r). Qed.

Lemma flt_false (x r : R) : r <= x -> flt (Num x) r = false.
Proof. intros H. cbn. destruct (Rlt_dec x r); [lra|done]. Qed.

Lemma norm_eval (x y d : R) :
  0 <= d -> x * x + y * y = d * d -> norm (Arr x y) = Num d.
Proof. intros Hd Hsq. cbn. by rewrite Hsq, sqrt_square. Qed.

Lemma inMarginOfError_eval (self : t) (lst : Segment2D.t)
    (x y tx ty d : R) :
  last (segments self) = Some lst ->
  Segment2D.point lst = Arr x y ->
  0 <= d -> (x - tx) * (x - tx) + (y - ty) * (y - ty) = d * d ->
  inMarginOfError self tx ty = Ok (flt (Num d) (marginOfError self)).
Proof.
  intros Hlast Hp Hd Hsq. unfold inMarginOfError.
  rewrite (getitem_last _ _ Hlast). cbn [mbind result_bind].
  rewrite Hp. cbn [vsub]. by rewrite (norm_eval _ _ d).
Qed.

Lemma isReachable_eval (self : t) (bx by' tx ty d : R) :
  basePoint self = Arr bx by' ->
  0 <= d -> (bx - tx) * (bx - tx) + (by' - ty) * (by' - ty) = d * d ->
  isReachable self tx ty = flt (Num d) (armLength self).
Proof.
  intros Hb Hd Hsq. unfold isReachable. rewrite Hb. cbn [vsub].
  by rewrite (norm_eval _ _ d).
Qed.

(** ** The example chains under [iterate] *)

Lemma bent_arm_sweep : iterate bent_arm 3 0 = Ok reached_arm.
Proof.
  unfold bent_arm, reached_arm. rewrite iterate_two. cbn.
  rewrite (place_eval 3 4 3 0 4 4 3 4) by lra.
  rewrite (place_eval 3 4 0 0 5 5 3 4) by lra.
  rewrite (pull_eval 3 4 3 0 4 4 3 0) by lra.
  done.
Qed.

Lemma extended_arm_sweep : iterate extended_arm 200 0 = Ok stalled_arm.
Proof.
  unfold extended_arm, stalled_arm. rewrite iterate_three. cbn.
  rewrite (place_eval 270 0 200 0 100 70 300 0) by lra.
  rewrite (place_eval 150 0 300 0 120 150 180 0) by lra.
  rewrite (place_eval 180 0 0 0 150 180 150 0) by lra.
  rewrite (place_eval 300 0 150 0 120 150 270 0) by lra.
  rewrite (pull_eval 270 0 200 0 100 70 170 0) by lra.
  done.
Qed.

Lemma stalled_arm_sweep : iterate stalled_arm 200 0 = Ok stalled_arm.
Proof.
  unfold stalled_arm. rewrite iterate_three. cbn.
  rewrite (place_eval 270 0 200 0 100 70 300 0) by lra.
  rewrite (place_eval 150 0 300 0 120 150 180 0) by lra.
  rewrite (place_eval 180 0 0 0 150 180 150 0) by lra.
  rewrite (place_eval 300 0 150 0 120 150 270 0) by lra.
  rewrite (pull_eval 270 0 200 0 100 70 170 0) by lra.
  done.
Qed.

Lemma single_arm_sweep (tx ty : R) : iterate single_arm tx ty = Ok single_arm.
Proof.
  unfold single_arm. rewrite iterate_one. cbn.
  rewrite (place_eval 1 0 0 0 1 1 1 0) by lra.
  done.
Qed.

(** ** addSegment *)

Lemma addSegment_eq (self : t) (length angle : R) :
  let anchor := match last (segments self) with
                | Some lst => Segment2D.point lst
                | None => basePoint self
                end in
  let cumulative := match last (segments self) with
                    | Some lst => angle + Segment2D.angle lst
                    | None => angle
                    end in
  addSegment self length angle
  = Ok (Build (basePoint self)
          (segments self ++ [Segment2D.init anchor length cumulative])
          (armLength self + length)
          (marginOfError self)).
Proof.
  unfold addSegment.
  destruct (last (segments self)) as [lst|] eqn:Hlast.
  - rewrite (getitem_last _ _ Hlast).
    destruct (segments self) as [|s0 rest]; [done|].
    unfold len. cbn [List.length].
    destruct (Z.ltb_spec 0 (Z.of_nat (S (List.length rest)))); [done|lia].
  - apply last_None in Hlast. by rewrite Hlast.
Qed.

(** C9.  [addSegment], for every length (in particular every finite
    positive one) and relative angle in degrees, returns without raising;
    the new chain is the old one followed by one segment; that segment
    stores the given length and the cumulative angle (the relative angle
    plus the last segment's angle, or the relative angle alone on an empty
    chain); its joint is the anchor (the last joint, or the base point on
    an empty chain) plus [length * (cos a, sin a)] with [a] the cumulative
    angle in radians; and the arm length grows by exactly the length. *)
Theorem addSegment_spec (self : t) (length angle : R) :
  let anchor := match last (segments self) with
                | Some lst => Segment2D.point lst
                | None => basePoint self
                end in
  let cumulative := match last (segments self) with
                    | Some lst => angle + Segment2D.angle lst
                    | None => angle
                    end in
  exists segment,
    addSegment self length angle
    = Ok (Build (basePoint self) (segments self ++ [segment])
            (armLength self + length) (marginOfError self)) /\
    Segment2D.angle segment = cumulative /\
    Segment2D.length segment = length /\
    Segment2D.point segment
    = vadd anchor
        (vscale (Arr (cos (cumulative * PI / 180)) (sin (cumulative * PI / 180)))
                length).
Proof.
  intros anchor cumulative.
  exists (Segment2D.init anchor length cumulative).
  split; [apply addSegment_eq|]. done.
Qed.

(** C6 (as amended).  [addSegment] does not validate the length: with a
    zero or negative length it raises nothing, appends the segment (the
    segment count grows by one) and adds the length to the arm length. *)
Theorem addSegment_nonpositive (self : t) (length angle : R) :
  length <= 0 ->
  exists self',
    addSegment self length angle = Ok self' /\
    List.length (segments self') = S (List.length (segments self)) /\
    armLength self' = armLength self + length.
Proof.
  intros _. eexists. split; [apply addSegment_eq|].
  cbn. split; [|done]. rewrite length_app. cbn. lia.
Qed.

(** Length -1 on a freshly constructed solver. *)
Lemma addSegment_nonpositive_witness :
  exists self',
    addSegment (init 0 0 (1 / 100)) (-1) 0 = Ok self' /\
    List.length (segments self') = S (List.length (segments (init 0 0 (1 / 100)))) /\
    armLength self' = armLength (init 0 0 (1 / 100)) + -1.
Proof. apply addSegment_nonpositive. lra. Defined.

(** C6, as stated, fails: appending a segment of length -1 to a freshly
    constructed solver raises nothing and changes both the segment count
    (0 to 1) and the arm length (0 to -1). *)
Lemma addSegment_negative_accepted :
  exists self',
    addSegment (init 0 0 (1 / 100)) (-1) 0 = Ok self' /\
    List.length (segments (init 0 0 (1 / 100))) = 0%nat /\
    List.length (segments self') = 1%nat /\
    armLength (init 0 0 (1 / 100)) = 0 /\
    armLength self' = -1.
Proof.
  eexists. split; [apply addSegment_eq|]. cbn.
  repeat split. lra.
Qed.

(** ** Reachability *)

Lemma total_length_snoc (self : t) (segment : Segment2D.t) (arm margin : R) :
  total_length (Build (basePoint self) (segments self ++ [segment]) arm margin)
  = total_length self + Segment2D.length segment.
Proof.
  unfold total_length. cbn [segments].
  induction (segments self) as [|s0 rest IH]; cbn; [lra|].
  cbn in IH. rewrite IH. lra.
Qed.

(** For a solver obtained through the interface the base point is a pair
    of reals and [armLength] is the sum of the segment lengths. *)
Lemma built_armLength (self : t) :
  built self ->
  armLength self = total_length self /\
  exists bx by', basePoint self = Arr bx by'.
Proof.
  induction 1 as [bx by' m|self self' l a _ [IHa IHb] Hadd
                 |self self' tx ty _ [IHa IHb] Hit].
  - split; [done|]. by exists bx, by'.
  - rewrite addSegment_eq in Hadd. injection Hadd as <-.
    rewrite total_length_snoc. cbn. split; [by rewrite IHa|done].
  - destruct (iterate_joints _ _ _ _ Hit) as (Hb & Ha & _).
    rewrite Hb, Ha. split; [|done].
    unfold total_length. by rewrite (iterate_lengths _ _ _ _ Hit).
Qed.

Lemma isReachable_iff (self : t) (bx by' tx ty : R) :
  basePoint self = Arr bx by' ->
  isReachable self tx ty = true <->
  sqrt ((bx - tx) * (bx - tx) + (by' - ty) * (by' - ty)) < armLength self.
Proof.
  intros Hb. unfold isReachable. rewrite Hb. cbn.
  destruct (Rlt_dec _ _); split; done.
Qed.

Lemma isReachable_init (baseX baseY margin tx ty : R) :
  isReachable (init baseX baseY margin) tx ty = false.
Proof.
  apply not_true_is_false. intros Hr.
  apply (isReachable_iff _ baseX baseY) in Hr; [|done]. cbn in Hr.
  pose proof (sqrt_pos ((baseX - tx) * (baseX - tx)
                        + (baseY - ty) * (baseY - ty))). lra.
Qed.

(** C5.  [isReachable] is true exactly when the Euclidean distance from
    the base point to the target is strictly less than the arm length; for
    every solver obtained through the interface the arm length is the sum
    of the segment lengths; and such a solver with no segments reaches no
    target at all (not even its own base point). *)
Theorem isReachable_spec :
  (forall (self : t) (bx by' tx ty : R),
     basePoint self = Arr bx by' ->
     isReachable self tx ty = true <->
     sqrt ((bx - tx) * (bx - tx) + (by' - ty) * (by' - ty)) < armLength self) /\
  (forall self : t,
     built self ->
     exists bx by',
       basePoint self = Arr bx by' /\
       forall tx ty,
         isReachable self tx ty = true <->
         sqrt ((bx - tx) * (bx - tx) + (by' - ty) * (by' - ty))
         < total_length self) /\
  (forall (self : t) (tx ty : R),
     built self -> segments self = [] -> isReachable self tx ty = false).
Proof.
  split; [exact isReachable_iff|]. split.
  - intros self Hbuilt.
    destruct (built_armLength _ Hbuilt) as (Harm & bx & by' & Hb).
    exists bx, by'. split; [done|]. intros tx ty.
    rewrite <- Harm. by apply isReachable_iff.
  - intros self tx ty Hbuilt Hnil.
    destruct (built_armLength _ Hbuilt) as (Harm & bx & by' & Hb).
    apply not_true_is_false. intros Hr.
    apply (isReachable_iff _ _ _ _ _ Hb) in Hr.
    rewrite Harm in Hr. unfold total_length in Hr. rewrite Hnil in Hr.
    cbn in Hr.
    pose proof (sqrt_pos ((bx - tx) * (bx - tx) + (by' - ty) * (by' - ty))).
    lra.
Qed.

(** The first part at the visualiser's chain and the target [(200, 0)],
    the other two at a freshly constructed solver. *)
Lemma isReachable_spec_witness :
  (isReachable extended_arm 200 0 = true <->
   sqrt ((0 - 200) * (0 - 200) + (0 - 0) * (0 - 0)) < armLength extended_arm)
  /\
  (exists bx by',
     basePoint (init 0 0 (1 / 100)) = Arr bx by' /\
     forall tx ty,
       isReachable (init 0 0 (1 / 100)) tx ty = true <->
       sqrt ((bx - tx) * (bx - tx) + (by' - ty) * (by' - ty))
       < total_length (init 0 0 (1 / 100))) /\
  isReachable (init 0 0 (1 / 100)) 0 0 = false.
Proof.
  split; [|split].
  - apply (proj1 isReachable_spec extended_arm 0 0 200 0). reflexivity.
  - apply (proj1 (proj2 isReachable_spec) (init 0 0 (1 / 100))).
    apply built_init.
  - apply (proj2 (proj2 isReachable_spec) (init 0 0 (1 / 100)) 0 0).
    + apply built_init.
    + reflexivity.
Defined.

(** ** The unreachable case *)

(** C4.  When the distance from the base point to the target is greater
    than or equal to the arm length, [compute] returns [False] whatever
    the fuel, and the solver it leaves behind is the one it was given:
    nothing is modified. *)
Theorem compute_unreachable (fuel : nat) (self : t) (bx by' tx ty : R) :
  basePoint self = Arr bx by' ->
  armLength self
  <= sqrt ((bx - tx) * (bx - tx) + (by' - ty) * (by' - ty)) ->
  compute fuel self tx ty = Some (Ok (false, self)).
Proof.
  intros Hb Hfar. unfold compute.
  destruct (isReachable self tx ty) eqn:Hr; [|done].
  apply (isReachable_iff _ _ _ _ _ Hb) in Hr. lra.
Qed.

(** The visualiser's chain (arm length 370) and the target [(500, 0)]. *)
Lemma compute_unreachable_witness :
  compute 0 extended_arm 500 0 = Some (Ok (false, extended_arm)).
Proof.
  apply (compute_unreachable 0 extended_arm 0 0 500 0); [reflexivity|].
  cbn. replace ((0 - 500) * (0 - 500) + (0 - 0) * (0 - 0)) with (500 * 500)
    by lra.
  rewrite sqrt_square; lra.
Defined.

(** ** The empty chain *)

Lemma inMarginOfError_empty (self : t) (tx ty : R) :
  segments self = [] -> inMarginOfError self tx ty = Raise IndexError.
Proof.
  intros Hnil. unfold inMarginOfError. by rewrite Hnil, getitem_empty.
Qed.

Lemma compute_init (fuel : nat) (baseX baseY margin tx ty : R) :
  compute fuel (init baseX baseY margin) tx ty
  = Some (Ok (false, init baseX baseY margin)).
Proof. unfold compute. by rewrite isReachable_init. Qed.

(** C8 (as amended).  On a solver with no segments [inMarginOfError] fails
    for every target: indexing the empty segment list raises [IndexError].
    [compute] on a freshly constructed solver does not fail: the arm
    length is 0, so the reachability test rejects every target first and
    [compute] returns [False] with the solver untouched.  [compute] on an
    empty chain raises (the same [IndexError]) only if the reachability
    test passes, which needs a positive arm length. *)
Theorem empty_chain :
  (forall (self : t) (tx ty : R),
     segments self = [] -> inMarginOfError self tx ty = Raise IndexError) /\
  (forall (fuel : nat) (baseX baseY margin tx ty : R),
     compute fuel (init baseX baseY margin) tx ty
     = Some (Ok (false, init baseX baseY margin))) /\
  (forall (fuel : nat) (self : t) (tx ty : R),
     segments self = [] -> isReachable self tx ty = true ->
     compute (S fuel) self tx ty = Some (Raise IndexError)).
Proof.
  split; [exact inMarginOfError_empty|]. split.
  - exact compute_init.
  - intros fuel self tx ty Hnil Hr. unfold compute. rewrite Hr.
    cbn. by rewrite inMarginOfError_empty.
Qed.

(** A fresh solver, and an empty chain whose arm length was set to 2. *)
Lemma empty_chain_witness :
  inMarginOfError (init 0 0 (1 / 100)) 1 1 = Raise IndexError /\
  compute 1 (Build (Arr 0 0) [] 2 (1 / 100)) 1 0 = Some (Raise IndexError).
Proof.
  split.
  - apply (proj1 empty_chain). reflexivity.
  - apply (proj2 (proj2 empty_chain)); [reflexivity|].
    rewrite (isReachable_eval _ 0 0 1 0 1) by (done || lra).
    apply flt_true. cbn. lra.
Defined.

(** C8, as stated, fails for [compute]: on a solver with no segments it
    raises nothing and returns [False]. *)
Lemma compute_empty_returns_false :
  compute 1 (init 0 0 (1 / 100)) 1 1 = Some (Ok (false, init 0 0 (1 / 100))).
Proof. apply compute_init. Qed.

(** ** The single-segment chain *)

(** C10.  On a chain with exactly one segment the backward loop of
    [iterate] has no index to visit, and [iterate] returns the solver with
    the sole joint set to [base + length * unit(joint - base)]; the result
    is the same for any two targets. *)
Theorem iterate_single_segment (self : t) (segment : Segment2D.t)
    (tx ty : R) :
  segments self = [segment] ->
  range_down (len (segments self) - 1) = [] /\
  iterate self tx ty
  = Ok (Build (basePoint self)
          [Segment2D.set_point segment
             (vadd (vscale (unitVector (vsub (Segment2D.point segment)
                                             (basePoint self)))
                           (Segment2D.length segment))
                   (basePoint self))]
          (armLength self) (marginOfError self)) /\
  forall tx' ty', iterate self tx' ty' = iterate self tx ty.
Proof.
  intros Hone. destruct self as [base segs arm margin]. cbn in *. subst segs.
  split; [done|]. split; [apply iterate_one|].
  intros tx' ty'. by rewrite !iterate_one.
Qed.

(** The one-segment chain of length 1. *)
Lemma iterate_single_segment_witness :
  range_down (len (segments single_arm) - 1) = [] /\
  iterate single_arm 0 (1 / 2)
  = Ok (Build (basePoint single_arm)
          [Segment2D.set_point (seg 1 1 0)
             (vadd (vscale (unitVector (vsub (Segment2D.point (seg 1 1 0))
                                             (basePoint single_arm)))
                           (Segment2D.length (seg 1 1 0)))
                   (basePoint single_arm))]
          (armLength single_arm) (marginOfError single_arm)) /\
  forall tx' ty', iterate single_arm tx' ty' = iterate single_arm 0 (1 / 2).
Proof. apply iterate_single_segment. reflexivity. Defined.

(** ** The convergence loop and repeated sweeps *)

Lemma inMarginOfError_raises (self : t) (tx ty : R) (e : exn) :
  inMarginOfError self tx ty = Raise e -> segments self = [].
Proof.
  unfold inMarginOfError. intros Hr.
  destruct (last (segments self)) as [lst|] eqn:Hlast.
  - by rewrite (getitem_last _ _ Hlast) in Hr.
  - by apply last_None.
Qed.

Lemma sweeps_length (k : nat) (self self' : t) (tx ty : R) :
  sweeps k self tx ty = Ok self' ->
  length (segments self') = length (segments self).
Proof.
  revert self. induction k as [|k IH]; intros self Hs; cbn in Hs.
  - by injection Hs as <-.
  - destruct (iterate self tx ty) as [nxt|] eqn:Hit; [|done]. cbn in Hs.
    rewrite (IH _ Hs).
    by destruct (iterate_joints _ _ _ _ Hit) as (_ & _ & _ & -> & _).
Qed.

(** If [k] sweeps bring the end effector within the margin, the loop
    returns, with the first such solver on the way. *)
Lemma converge_reaches (k : nat) (self self_k : t) (tx ty : R) :
  sweeps k self tx ty = Ok self_k ->
  inMarginOfError self_k tx ty = Ok true ->
  exists j self',
    (j <= k)%nat /\
    sweeps j self tx ty = Ok self' /\
    inMarginOfError self' tx ty = Ok true /\
    forall fuel, (j < fuel)%nat ->
      converge fuel self tx ty = Some (Ok self').
Proof.
  revert self. induction k as [|k IH]; intros self Hs Hin; cbn in Hs.
  - injection Hs as <-. exists 0%nat, self. repeat split; [done..|].
    intros [|fuel] Hf; [lia|]. cbn. by rewrite Hin.
  - destruct (iterate self tx ty) as [nxt|] eqn:Hit; [|done]. cbn in Hs.
    destruct (inMarginOfError self tx ty) as [[]|e] eqn:Hself.
    + exists 0%nat, self. split; [lia|]. repeat split; [done..|].
      intros [|fuel] Hf; [lia|]. cbn. by rewrite Hself.
    + destruct (IH _ Hs Hin) as (j & self' & Hj & Hsj & Hinj & Hfuel).
      exists (S j), self'. split; [lia|]. split; [cbn; by rewrite Hit|].
      split; [done|].
      intros [|fuel] Hf; [lia|]. cbn. rewrite Hself, Hit.
      apply Hfuel. lia.
    + apply inMarginOfError_raises in Hself.
      assert (Hk : segments self_k = []).
      { apply nil_length_inv.
        rewrite (sweeps_length _ _ _ _ _ Hs).
        destruct (iterate_joints _ _ _ _ Hit) as (_ & _ & _ & -> & _).
        by rewrite Hself. }
      by rewrite (inMarginOfError_empty _ _ _ Hk) in Hin.
Qed.

(** The loop stops exactly when, after some number of sweeps, the margin
    test does not ask for another one. *)
Lemma converge_stops_iff (self : t) (tx ty : R) :
  (exists fuel, converge fuel self tx ty <> None) <->
  (exists k self_k,
     sweeps k self tx ty = Ok self_k /\
     inMarginOfError self_k tx ty <> Ok false).
Proof.
  split.
  - intros [fuel Hc]. revert self Hc.
    induction fuel as [|fuel IH]; intros self Hc; [done|]. cbn in Hc.
    destruct (inMarginOfError self tx ty) as [[]|e] eqn:Hself.
    + exists 0%nat, self. split; [done|]. by rewrite Hself.
    + destruct (iterate self tx ty) as [nxt|] eqn:Hit; [|by
        destruct (iterate_total self tx ty) as [? Hok]; rewrite Hok in Hit].
      destruct (IH _ Hc) as (k & self_k & Hs & Hin).
      exists (S k), self_k. split; [cbn; by rewrite Hit|done].
    + exists 0%nat, self. split; [done|]. by rewrite Hself.
  - intros (k & self_k & Hs & Hin). revert self Hs.
    induction k as [|k IH]; intros self Hs; cbn in Hs.
    + injection Hs as <-. exists 1%nat. cbn.
      by destruct (inMarginOfError self tx ty) as [[]|e].
    + destruct (iterate self tx ty) as [nxt|] eqn:Hit; [|done]. cbn in Hs.
      destruct (IH _ Hs) as [fuel Hf].
      destruct (inMarginOfError self tx ty) as [[]|e] eqn:Hself.
      * exists 1%nat. cbn. by rewrite Hself.
      * exists (S fuel). cbn. by rewrite Hself, Hit.
      * exists 1%nat. cbn. by rewrite Hself.
Qed.

(** A solver that one sweep maps to itself and that is outside the margin
    keeps the loop running for ever. *)
Lemma converge_fixed_point (self : t) (tx ty : R) :
  inMarginOfError self tx ty = Ok false ->
  iterate self tx ty = Ok self ->
  forall fuel, converge fuel self tx ty = None.
Proof.
  intros Hin Hit fuel. induction fuel as [|fuel IH]; [done|].
  cbn. by rewrite Hin, Hit.
Qed.

(** ** Termination of [compute] *)

(** C3 (as amended).  The loop of [compute] has no iteration cutoff.
    [compute] terminates exactly when the target is unreachable (it then
    returns at once) or some finite number of sweeps brings the solver to
    a state in which the margin test ends the loop; in every other case
    it runs for ever. *)
Theorem compute_termination (self : t) (tx ty : R) :
  (exists fuel, compute fuel self tx ty <> None) <->
  isReachable self tx ty = false \/
  (exists k self_k,
     sweeps k self tx ty = Ok self_k /\
     inMarginOfError self_k tx ty <> Ok false).
Proof.
  rewrite <- converge_stops_iff. unfold compute.
  destruct (isReachable self tx ty); cbn.
  - split.
    + intros [fuel Hc]. right. exists fuel.
      by destruct (converge fuel self tx ty) as [[]|].
    + intros [?|[fuel Hc]]; [done|]. exists fuel.
      by destruct (converge fuel self tx ty) as [[]|].
  - split; [by left|]. intros _. by exists 0%nat.
Qed.

Lemma single_arm_loops (fuel : nat) :
  converge fuel single_arm (1 / 2) 0 = None.
Proof.
  apply converge_fixed_point; [|apply single_arm_sweep].
  rewrite (inMarginOfError_eval single_arm (seg 1 1 0) 1 0 (1 / 2) 0 (1 / 2))
    by (done || lra).
  f_equal. apply flt_false. cbn. lra.
Qed.

(** ** Convergence *)

(** A segment created at angle 0 points along the X axis. *)
Lemma init_flat (ax ay l a : R) :
  a = 0 -> Segment2D.init (Arr ax ay) l a = seg l (ax + l) ay.
Proof.
  intros ->. unfold Segment2D.init, Segment2D.radians, seg.
  replace (0 * PI / 180) with 0 by lra. rewrite cos_0, sin_0.
  cbn. do 2 f_equal; lra.
Qed.

Lemma extended_arm_built : built extended_arm.
Proof.
  apply (built_addSegment
           (Build (Arr 0 0) [seg 150 150 0; seg 120 270 0] 270 (1 / 100))
           _ 100 0).
  - apply (built_addSegment (Build (Arr 0 0) [seg 150 150 0] 150 (1 / 100))
             _ 120 0).
    + apply (built_addSegment (init 0 0 (1 / 100)) _ 150 0);
        [apply built_init|].
      rewrite addSegment_eq. cbn. rewrite init_flat by done.
      do 2 f_equal; [do 2 f_equal|]; lra.
    + rewrite addSegment_eq. cbn. rewrite init_flat by lra.
      do 2 f_equal; [do 3 f_equal|]; lra.
  - rewrite addSegment_eq. cbn. rewrite init_flat by lra.
    unfold extended_arm. do 2 f_equal; [do 4 f_equal|]; lra.
Qed.

Lemma stalled_arm_loops (fuel : nat) :
  converge fuel stalled_arm 200 0 = None.
Proof.
  apply converge_fixed_point; [|apply stalled_arm_sweep].
  rewrite (inMarginOfError_eval stalled_arm (seg 100 170 0) 170 0 200 0 30)
    by (done || lra).
  f_equal. apply flt_false. cbn. lra.
Qed.

(** C3, as stated, fails: the three-segment chain of the visualiser
    (lengths 150, 120, 100, fully extended along the X axis, as
    [addSegment] builds it) and the target [(200, 0)], which is reachable.
    The first sweep folds the end effector back to [(170, 0)], every later
    sweep reproduces that pose, and no number of loop iterations makes
    [compute] return: there is no cutoff. *)
Lemma compute_has_no_cutoff :
  built extended_arm /\
  isReachable extended_arm 200 0 = true /\
  forall fuel, compute fuel extended_arm 200 0 = None.
Proof.
  assert (Hr : isReachable extended_arm 200 0 = true).
  { rewrite (isReachable_eval _ 0 0 200 0 200) by (done || lra).
    apply flt_true. cbn. lra. }
  split; [apply extended_arm_built|]. split; [done|].
  intros fuel. unfold compute. rewrite Hr. cbn [negb].
  destruct fuel as [|fuel]; [done|]. cbn [converge].
  rewrite (inMarginOfError_eval extended_arm (seg 100 370 0) 370 0 200 0 170)
    by (done || lra).
  rewrite flt_false by (cbn; lra).
  by rewrite extended_arm_sweep, stalled_arm_loops.
Qed.

Lemma single_arm_built : built single_arm.
Proof.
  apply (built_addSegment (init 0 0 (1 / 100)) _ 1 0); [apply built_init|].
  rewrite addSegment_eq. cbn. rewrite init_flat by done.
  unfold single_arm. do 2 f_equal; [do 2 f_equal|]; lra.
Qed.

(** The one-segment chain of length 1 (as [addSegment] builds it at angle
    0) and the target [(1/2, 0)], at distance 1/2 from the base point with
    arm length 1: [compute] never returns, and no position of the joint at
    distance 1 from the base point is within the margin of that target. *)
Lemma compute_does_not_converge :
  built single_arm /\
  segments single_arm <> [] /\
  sqrt ((0 - 1 / 2) * (0 - 1 / 2) + (0 - 0) * (0 - 0)) < armLength single_arm /\
  (forall fuel, compute fuel single_arm (1 / 2) 0 = None) /\
  (forall x y, x * x + y * y = 1 ->
     marginOfError single_arm
     <= sqrt ((x - 1 / 2) * (x - 1 / 2) + (y - 0) * (y - 0))).
Proof.
  assert (Hd : sqrt ((0 - 1 / 2) * (0 - 1 / 2) + (0 - 0) * (0 - 0)) = 1 / 2).
  { replace ((0 - 1 / 2) * (0 - 1 / 2) + (0 - 0) * (0 - 0))
      with (1 / 2 * (1 / 2)) by lra.
    apply sqrt_square. lra. }
  split; [apply single_arm_built|]. split; [done|]. split.
  { rewrite Hd. cbn. lra. }
  split.
  - intros fuel. unfold compute.
    rewrite (isReachable_eval _ 0 0 (1 / 2) 0 (1 / 2)) by (done || lra).
    rewrite flt_true by (cbn; lra). cbn [negb].
    by rewrite single_arm_loops.
  - intros x y Hxy. cbn [marginOfError single_arm].
    apply Rle_trans with (sqrt (1 / 2 * (1 / 2))).
    + rewrite sqrt_square; lra.
    + apply sqrt_le_1_alt. nra.
Qed.

Lemma extended_sweep_190 (e : R) :
  iterate (Build (Arr 0 0)
             [seg 150 150 0; seg 120 270 0; seg 100 e 0] 370 (1 / 100))
    190 0
  = Ok stalled_arm.
Proof.
  unfold stalled_arm. rewrite iterate_three. cbn.
  rewrite (place_eval 270 0 190 0 100 80 290 0) by lra.
  rewrite (place_eval 150 0 290 0 120 140 170 0) by lra.
  rewrite (place_eval 170 0 0 0 150 170 150 0) by lra.
  rewrite (place_eval 290 0 150 0 120 140 270 0) by lra.
  rewrite (pull_eval 270 0 190 0 100 80 170 0) by lra.
  done.
Qed.

(** C2.  The code does not do what the claim says.  The chain of the
    visualiser (lengths 150, 120, 100, built by [addSegment] at angle 0
    from the origin, margin 1/100) and the target [(190, 0)]: the target
    is at distance 190 from the base point, strictly less than the arm
    length 370, and the chain can reach it exactly (joints at [(90, 120)],
    [(90, 0)] and [(190, 0)] respect the three lengths).  Yet the first
    sweep folds the end effector back to [(170, 0)], every later sweep
    reproduces that pose, 20 away from the target, and [compute] never
    returns. *)
Theorem compute_hangs_on_attainable_target :
  built extended_arm /\
  (Segment2D.length <$> segments extended_arm) = [150; 120; 100] /\
  sqrt ((0 - 190) * (0 - 190) + (0 - 0) * (0 - 0)) < armLength extended_arm /\
  (norm (vsub (Arr 90 120) (basePoint extended_arm)) = Num 150 /\
   norm (vsub (Arr 90 0) (Arr 90 120)) = Num 120 /\
   norm (vsub (Arr 190 0) (Arr 90 0)) = Num 100) /\
  iterate extended_arm 190 0 = Ok stalled_arm /\
  iterate stalled_arm 190 0 = Ok stalled_arm /\
  inMarginOfError stalled_arm 190 0 = Ok false /\
  forall fuel, compute fuel extended_arm 190 0 = None.
Proof.
  assert (Hstalled : inMarginOfError stalled_arm 190 0 = Ok false).
  { rewrite (inMarginOfError_eval stalled_arm (seg 100 170 0) 170 0 190 0 20)
      by (done || lra).
    f_equal. apply flt_false. cbn. lra. }
  split; [apply extended_arm_built|]. split; [done|]. split.
  { replace ((0 - 190) * (0 - 190) + (0 - 0) * (0 - 0)) with (190 * 190)
      by lra.
    rewrite sqrt_square by lra. cbn. lra. }
  split.
  { cbn [basePoint extended_arm vsub].
    split; [|split]; apply norm_eval; lra. }
  split; [apply extended_sweep_190|]. split; [apply extended_sweep_190|].
  split; [done|].
  intros fuel. unfold compute.
  rewrite (isReachable_eval _ 0 0 190 0 190) by (done || lra).
  rewrite flt_true by (cbn; lra). cbn [negb].
  destruct fuel as [|fuel]; [done|]. cbn [converge].
  rewrite (inMarginOfError_eval extended_arm (seg 100 370 0) 370 0 190 0 180)
    by (done || lra).
  rewrite flt_false by (cbn; lra).
  unfold extended_arm at 1. rewrite extended_sweep_190.
  by rewrite (converge_fixed_point stalled_arm 190 0 Hstalled
                (extended_sweep_190 170) fuel).
Qed.

(** ** Degenerate geometry *)





Lemma unitVector_zero (x y : R) : unitVector (vsub (Arr x y) (Arr x y)) = ArrNaN.
Proof.
  apply unitVector_nan. right. cbn. f_equal; lra.
Qed.

Lemma place_at_anchor (x y l : R) : place (Arr x y) (Arr x y) l = ArrNaN.
Proof. unfold place. by rewrite unitVector_zero. Qed.







(** ** Length preservation on the example chains *)

Lemma normalized_one (base : array2) (s0 : Segment2D.t)
    (arm margin tx ty : R) :
  normalized (Build base [s0] arm margin) tx ty
  = Ok [vsub (Segment2D.point s0) base].
Proof. reflexivity. Qed.

Lemma normalized_two (base : array2) (s0 s1 : Segment2D.t)
    (arm margin tx ty : R) :
  let target := Arr tx ty in
  let b0 := place (Segment2D.point s0) target (Segment2D.length s1) in
  let f0 := place b0 base (Segment2D.length s0) in
  normalized (Build base [s0; s1] arm margin) tx ty
  = Ok [vsub (Segment2D.point s0) target; vsub b0 base; vsub f0 target].
Proof. reflexivity. Qed.

Lemma bent_arm_normalized : no_zero_normalize bent_arm 3 0.
Proof.
  unfold no_zero_normalize, bent_arm. rewrite normalized_two. cbn.
  rewrite (place_eval 3 4 3 0 4 4 3 4) by lra.
  rewrite (place_eval 3 4 0 0 5 5 3 4) by lra.
  eexists. split; [done|].
  repeat (apply Forall_cons_2 || apply Forall_nil_2); cbn; right; lra.
Qed.

(** The chain with its elbow at [(3, 4)] and the target [(3, 0)]: the
    three vectors normalised are [(0, 4)], [(3, 4)] and [(0, 4)]. *)
Lemma length_preservation_witness :
  (exists self',
     iterate bent_arm 3 0 = Ok self' /\
     (Segment2D.length <$> segments self')
     = (Segment2D.length <$> segments bent_arm) /\
     forall i seg prev,
       segments self' !! i = Some seg ->
       get_joint_positions self' !! i = Some prev ->
       Segment2D.point seg <> ArrNaN /\
       norm (vsub (Segment2D.point seg) prev)
       = Num (Rabs (Segment2D.length seg))) /\
  (forall fuel b self',
     compute fuel bent_arm 3 0 = Some (Ok (b, self')) ->
     self' <> bent_arm ->
     forall i seg prev,
       segments self' !! i = Some seg ->
       get_joint_positions self' !! i = Some prev ->
       Segment2D.point seg <> ArrNaN /\
       norm (vsub (Segment2D.point seg) prev)
       = Num (Rabs (Segment2D.length seg))).
Proof.
  destruct (length_preservation bent_arm 3 0) as [Hsweep Hsolve].
  - discriminate.
  - split; [|exact Hsolve]. apply Hsweep. apply bent_arm_normalized.
Defined.

(** C1, as stated, fails in two ways.

    A segment of negative length, which [addSegment] accepts: the chain
    of one segment of length -1 created at angle 0 has its joint at
    [(-1, 0)]; the sweep normalises the nonzero vector [(-1, 0)] and
    moves the joint to [(1, 0)], at distance 1 from the base point, which
    is the absolute value of the length and not the length.

    A joint that is already NaN: in the straight two-segment chain whose
    joints an earlier sweep (target on the middle joint) left NaN, no
    vector handed to [unitVector] is the zero vector, yet every joint is
    NaN afterwards and at no distance from anything. *)
Lemma length_not_preserved :
  (addSegment (init 0 0 (1 / 100)) (-1) 0 = Ok reversed_arm /\
   normalized reversed_arm 5 5 = Ok [Arr (-1 - 0) (0 - 0)] /\
   iterate reversed_arm 5 5 = Ok flipped_arm /\
   segments flipped_arm !! 0%nat = Some (seg (-1) 1 0) /\
   get_joint_positions flipped_arm !! 0%nat = Some (Arr 0 0) /\
   norm (vsub (Segment2D.point (seg (-1) 1 0)) (Arr 0 0)) = Num 1 /\
   Num 1 <> Num (Segment2D.length (seg (-1) 1 0))) /\
  (iterate straight_arm 1 0 = Ok lost_arm /\
   normalized lost_arm 5 5 = Ok [ArrNaN; ArrNaN; ArrNaN] /\
   Forall (fun v => v <> Arr 0 0) [ArrNaN; ArrNaN; ArrNaN] /\
   iterate lost_arm 5 5 = Ok lost_arm /\
   Forall (fun sg => forall prev,
             norm (vsub (Segment2D.point sg) prev)
             <> Num (Segment2D.length sg)) (segments lost_arm)).
Proof.
  split.
  - split.
    { rewrite addSegment_eq. cbn. rewrite init_flat by done.
      unfold reversed_arm. do 2 f_equal; [|lra].
      unfold seg. do 3 f_equal. lra. }
    split; [reflexivity|]. split.
    { unfold reversed_arm, flipped_arm. rewrite iterate_one. cbn.
      by rewrite (place_eval (-1) 0 0 0 (-1) 1 1 0) by lra. }
    split; [reflexivity|]. split; [reflexivity|]. split.
    + cbn [seg Segment2D.point vsub]. apply norm_eval; lra.
    + cbn. intros [= H]. lra.
  - split.
    { unfold straight_arm, lost_arm. rewrite iterate_two. cbn.
      by rewrite !place_at_anchor. }
    split; [reflexivity|]. split.
    { by repeat (apply Forall_cons_2 || apply Forall_nil_2). }
    split; [reflexivity|].
    by repeat (apply Forall_cons_2 || apply Forall_nil_2).
Qed.

(** * Further properties of the solver *)

(** ** What a sweep and a solve leave untouched *)

Lemma iterate_angles (self self' : t) (tx ty : R) :
  iterate self tx ty = Ok self' ->
  (Segment2D.angle <$> segments self') = (Segment2D.angle <$> segments self).
Proof.
  intros Hit.
  destruct (iterate_joints _ _ _ _ Hit) as (_ & _ & _ & Hlen & Hj).
  apply list_eq. intros i. rewrite !list_lookup_fmap.
  destruct (segments self !! i) as [si|] eqn:Hsi.
  - destruct (Hj i si Hsi) as (mi & Ha & _ & ->). cbn. by rewrite Ha.
  - rewrite (lookup_ge_None_2 (segments self') i); [done|].
    rewrite Hlen. by apply lookup_ge_None_1.
Qed.

Lemma same_frame_refl (self : t) : same_frame self self.
Proof. by repeat split. Qed.

Lemma same_frame_trans (a b c : t) :
  same_frame a b -> same_frame b c -> same_frame a c.
Proof.
  intros (H1 & H2 & H3 & H4 & H5) (K1 & K2 & K3 & K4 & K5).
  repeat split; congruence.
Qed.

Lemma iterate_same_frame (self self' : t) (tx ty : R) :
  iterate self tx ty = Ok self' -> same_frame self self'.
Proof.
  intros Hit.
  destruct (iterate_joints _ _ _ _ Hit) as (Hb & Ha & Hm & _).
  repeat split; [done..| |].
  - by eapply iterate_lengths.
  - by eapply iterate_angles.
Qed.

Lemma converge_same_frame (fuel : nat) (self self' : t) (tx ty : R) :
  converge fuel self tx ty = Some (Ok self') -> same_frame self self'.
Proof.
  revert self. induction fuel as [|fuel IH]; intros self Hc; [done|].
  cbn in Hc.
  destruct (inMarginOfError self tx ty) as [[]|]; [| |done].
  - injection Hc as <-. apply same_frame_refl.
  - destruct (iterate self tx ty) as [nxt|] eqn:Hit; [|done].
    eapply same_frame_trans; [by eapply iterate_same_frame|by apply IH].
Qed.

Lemma same_frame_count (self self' : t) :
  same_frame self self' ->
  length (segments self') = length (segments self).
Proof.
  intros (_ & _ & _ & Hl & _).
  by rewrite <- (length_fmap Segment2D.length), Hl, length_fmap.
Qed.

Lemma same_frame_isReachable (self self' : t) (tx ty : R) :
  same_frame self self' -> isReachable self' tx ty = isReachable self tx ty.
Proof.
  intros (Hb & Ha & _). unfold isReachable. by rewrite Hb, Ha.
Qed.

(** X1.  [iterate] never raises and moves joints only: the base point,
    the arm length, the margin, the number of segments and every
    segment's length and stored angle are the same afterwards. *)
Theorem iterate_moves_joints_only (self : t) (tx ty : R) :
  exists self',
    iterate self tx ty = Ok self' /\
    basePoint self' = basePoint self /\
    armLength self' = armLength self /\
    marginOfError self' = marginOfError self /\
    length (segments self') = length (segments self) /\
    (Segment2D.length <$> segments self')
    = (Segment2D.length <$> segments self) /\
    (Segment2D.angle <$> segments self')
    = (Segment2D.angle <$> segments self).
Proof.
  destruct (iterate_total self tx ty) as [self' Hit].
  exists self'. split; [done|].
  pose proof (iterate_same_frame _ _ _ _ Hit) as Hf.
  pose proof (same_frame_count _ _ Hf).
  destruct Hf as (? & ? & ? & ? & ?). done.
Qed.

Lemma compute_same_frame (fuel : nat) (self self' : t) (tx ty : R) (b : bool) :
  compute fuel self tx ty = Some (Ok (b, self')) -> same_frame self self'.
Proof.
  intros Hc.
  destruct (compute_returns _ _ _ _ _ _ Hc) as [(_ & -> & _)|(_ & _ & Hcv)].
  - apply same_frame_refl.
  - by eapply converge_same_frame.
Qed.

(** X2.  Whenever [compute] returns, it has moved joints only: base
    point, arm length, margin, segment count, lengths and angles are
    unchanged, and so the set of reachable targets is the same before and
    after. *)
Theorem compute_moves_joints_only (fuel : nat) (self self' : t)
    (tx ty : R) (b : bool) :
  compute fuel self tx ty = Some (Ok (b, self')) ->
  basePoint self' = basePoint self /\
  armLength self' = armLength self /\
  marginOfError self' = marginOfError self /\
  length (segments self') = length (segments self) /\
  (Segment2D.length <$> segments self')
  = (Segment2D.length <$> segments self) /\
  (Segment2D.angle <$> segments self')
  = (Segment2D.angle <$> segments self) /\
  forall x y, isReachable self' x y = isReachable self x y.
Proof.
  intros Hc. pose proof (compute_same_frame _ _ _ _ _ _ Hc) as Hf.
  pose proof (same_frame_count _ _ Hf).
  pose proof (fun x y => same_frame_isReachable _ _ x y Hf).
  destruct Hf as (? & ? & ? & ? & ?). done.
Qed.

Lemma bent_arm_compute :
  compute 2 bent_arm 3 0 = Some (Ok (true, reached_arm)).
Proof.
  unfold compute.
  rewrite (isReachable_eval _ 0 0 3 0 3) by (done || lra).
  rewrite flt_true by (cbn; lra). cbn [negb converge].
  rewrite (inMarginOfError_eval bent_arm (seg 4 3 8) 3 8 3 0 8)
    by (done || lra).
  rewrite flt_false by (cbn; lra).
  rewrite bent_arm_sweep.
  rewrite (inMarginOfError_eval reached_arm (seg 4 3 0) 3 0 3 0 0)
    by (done || lra).
  by rewrite flt_true by (cbn; lra).
Qed.

(** The chain with its elbow at [(3, 4)], solved for [(3, 0)]. *)
Lemma compute_moves_joints_only_witness :
  basePoint reached_arm = basePoint bent_arm /\
  armLength reached_arm = armLength bent_arm /\
  marginOfError reached_arm = marginOfError bent_arm /\
  length (segments reached_arm) = length (segments bent_arm) /\
  (Segment2D.length <$> segments reached_arm)
  = (Segment2D.length <$> segments bent_arm) /\
  (Segment2D.angle <$> segments reached_arm)
  = (Segment2D.angle <$> segments bent_arm) /\
  forall x y, isReachable reached_arm x y = isReachable bent_arm x y.
Proof.
  apply (compute_moves_joints_only 2 bent_arm reached_arm 3 0 true).
  apply bent_arm_compute.
Defined.

(** ** What [compute] returns *)

(** X3.  The flag [compute] returns is the value of [isReachable] for the
    target.  With [False] the solver is the one given; with [True] the
    end effector of the solver left behind has a position, and its
    distance to the target is strictly less than [marginOfError]. *)
Theorem compute_flag (fuel : nat) (self self' : t) (tx ty : R) (b : bool) :
  compute fuel self tx ty = Some (Ok (b, self')) ->
  b = isReachable self tx ty /\
  (b = false -> self' = self) /\
  (b = true ->
   exists lst x y,
     last (segments self') = Some lst /\
     Segment2D.point lst = Arr x y /\
     sqrt ((x - tx) * (x - tx) + (y - ty) * (y - ty)) < marginOfError self').
Proof.
  intros Hc.
  destruct (compute_returns _ _ _ _ _ _ Hc)
    as [(-> & -> & ->)|(-> & -> & Hcv)].
  - by repeat split.
  - repeat split; [done|]. intros _.
    destruct (converge_returns _ _ _ _ _ Hcv) as [Hin _].
    by apply inMarginOfError_true.
Qed.

(** The chain with its elbow at [(3, 4)], solved for [(3, 0)]. *)
Lemma compute_flag_witness :
  true = isReachable bent_arm 3 0 /\
  (true = false -> reached_arm = bent_arm) /\
  (true = true ->
   exists lst x y,
     last (segments reached_arm) = Some lst /\
     Segment2D.point lst = Arr x y /\
     sqrt ((x - 3) * (x - 3) + (y - 0) * (y - 0)) < marginOfError reached_arm).
Proof.
  apply (compute_flag 2 bent_arm reached_arm 3 0 true).
  apply bent_arm_compute.
Defined.

(** X4.  Solving again for the same target is a no-op: once [compute] has
    returned [True], another call with the same target returns [True] on
    the first test of the loop and leaves the solver exactly as it is. *)
Theorem compute_again (fuel fuel' : nat) (self self' : t) (tx ty : R) :
  compute fuel self tx ty = Some (Ok (true, self')) ->
  compute (S fuel') self' tx ty = Some (Ok (true, self')).
Proof.
  intros Hc.
  pose proof (compute_same_frame _ _ _ _ _ _ Hc) as Hf.
  destruct (compute_returns _ _ _ _ _ _ Hc) as [(? & _)|(_ & Hr & Hcv)];
    [done|].
  destruct (converge_returns _ _ _ _ _ Hcv) as [Hin _].
  unfold compute.
  rewrite (same_frame_isReachable _ _ _ _ Hf), Hr. cbn. by rewrite Hin.
Qed.

(** Solving the two-segment example twice. *)
Lemma compute_again_witness :
  compute 1 reached_arm 3 0 = Some (Ok (true, reached_arm)).
Proof.
  apply (compute_again 2 0 bent_arm reached_arm 3 0).
  apply bent_arm_compute.
Defined.

(** ** Exceptions *)

Lemma converge_no_raise (fuel : nat) (self : t) (tx ty : R) (e : exn) :
  segments self <> [] -> converge fuel self tx ty <> Some (Raise e).
Proof.
  revert self. induction fuel as [|fuel IH]; intros self Hne; [done|].
  cbn.
  destruct (inMarginOfError self tx ty) as [[]|e'] eqn:Hin; [done| |].
  - destruct (iterate_total self tx ty) as [nxt Hit]. rewrite Hit.
    apply IH. intros Hnil. apply Hne, nil_length_inv.
    rewrite <- (same_frame_count _ _ (iterate_same_frame _ _ _ _ Hit)).
    by rewrite Hnil.
  - by apply inMarginOfError_raises in Hin.
Qed.

Lemma built_empty_unreachable (self : t) (tx ty : R) :
  built self -> segments self = [] -> isReachable self tx ty = false.
Proof.
  intros Hbuilt Hnil.
  destruct (built_armLength _ Hbuilt) as (Harm & bx & by' & Hb).
  apply not_true_is_false. intros Hr.
  apply (isReachable_iff _ _ _ _ _ Hb) in Hr.
  rewrite Harm in Hr. unfold total_length in Hr. rewrite Hnil in Hr.
  cbn in Hr.
  pose proof (sqrt_pos ((bx - tx) * (bx - tx) + (by' - ty) * (by' - ty))).
  lra.
Qed.

Lemma built_compute_no_raise (fuel : nat) (self : t) (tx ty : R) (e : exn) :
  built self -> compute fuel self tx ty <> Some (Raise e).
Proof.
  intros Hbuilt. unfold compute.
  destruct (decide (segments self = [])) as [Hnil|Hne].
  - by rewrite built_empty_unreachable.
  - pose proof (converge_no_raise fuel self tx ty e Hne) as Hc.
    destruct (isReachable self tx ty); cbn; [|done].
    destruct (converge fuel self tx ty) as [[]|]; congruence.
Qed.

(** X5.  On a solver obtained through the interface ([__init__],
    [addSegment], earlier sweeps) [compute] never raises, whatever the
    target: with no segments the arm length is 0 and the reachability
    test returns first, with segments the end effector exists. *)
Theorem compute_never_raises (fuel : nat) (self : t) (tx ty : R) (e : exn) :
  built self -> compute fuel self tx ty <> Some (Raise e).
Proof.
  intros Hbuilt. unfold compute.
  destruct (isReachable self tx ty) eqn:Hr; cbn; [|done].
  destruct (decide (segments self = [])) as [Hnil|Hne].
  - by rewrite built_empty_unreachable in Hr.
  - pose proof (converge_no_raise fuel self tx ty e Hne) as Hc.
    intros Hraise. apply Hc.
    destruct (converge fuel self tx ty) as [[]|]; congruence.
Qed.

(** A freshly constructed solver, any fuel, any target. *)
Lemma compute_never_raises_witness :
  compute 3 (init 0 0 (1 / 100)) 5 5 <> Some (Raise IndexError).
Proof. apply compute_never_raises. apply built_init. Defined.

(** ** Lengths along a chain *)

Lemma sqrt_cos_sin (a l : R) :
  sqrt (cos a * l * (cos a * l) + sin a * l * (sin a * l)) = Rabs l.
Proof.
  apply sqrt_scaled_unit.
  pose proof (sin2_cos2 a) as H. unfold Rsqr in H. lra.
Qed.

Lemma init_at_distance (rx ry length angle : R) :
  norm (vsub (Segment2D.point (Segment2D.init (Arr rx ry) length angle))
             (Arr rx ry))
  = Num (Rabs length).
Proof.
  cbn. f_equal. rewrite <- (sqrt_cos_sin (Segment2D.radians angle)).
  f_equal. ring.
Qed.

(** X6.  [Segment2D.__init__] puts the joint at distance [|length|] from
    the reference point, whatever the angle, and stores the length and
    the angle it was given. *)
Theorem init_distance (rx ry length angle : R) :
  let segment := Segment2D.init (Arr rx ry) length angle in
  norm (vsub (Segment2D.point segment) (Arr rx ry)) = Num (Rabs length) /\
  Segment2D.length segment = length /\
  Segment2D.angle segment = angle.
Proof.
  cbv zeta. split; [|done]. cbn. f_equal.
  set (a := Segment2D.radians angle).
  replace (rx + cos a * length - rx) with (cos a * length) by lra.
  replace (ry + sin a * length - ry) with (sin a * length) by lra.
  apply sqrt_cos_sin.
Qed.

(** The segment lengths are respected: every joint that has a position is
    at distance [|length|] from the position before it. *)
Lemma built_distances (self : t) :
  built self ->
  forall i sg,
    segments self !! i = Some sg ->
    Segment2D.point sg <> ArrNaN ->
    norm (vsub (Segment2D.point sg)
               (joint_before (basePoint self) (segments self) i))
    = Num (Rabs (Segment2D.length sg)).
Proof.
  induction 1 as [bx by' m|self self' l a Hb IH Hadd
                 |self self' tx ty Hb IH Hit]; intros i sg Hsg Hfin.
  - done.
  - rewrite addSegment_eq in Hadd. injection Hadd as <-.
    cbn [segments basePoint] in *.
    destruct (decide (i < length (segments self))%nat) as [Hlt|Hge].
    + rewrite lookup_app_l in Hsg by done.
      rewrite <- (IH i sg Hsg Hfin). do 2 f_equal.
      destruct i as [|j]; [done|]. cbn.
      by rewrite lookup_app_l by lia.
    + rewrite lookup_app_r in Hsg by lia.
      destruct (i - length (segments self))%nat as [|k] eqn:Hk; [|done].
      assert (i = length (segments self)) as -> by lia.
      cbn in Hsg. injection Hsg as <-.
      assert (Hanchor : joint_before (basePoint self)
                (segments self ++ [Segment2D.init
                   match last (segments self) with
                   | Some lst => Segment2D.point lst
                   | None => basePoint self
                   end l
                   match last (segments self) with
                   | Some lst => a + Segment2D.angle lst
                   | None => a
                   end]) (length (segments self))
              = match last (segments self) with
                | Some lst => Segment2D.point lst
                | None => basePoint self
                end).
      { rewrite last_lookup.
        destruct (segments self) as [|s0 rest] eqn:Hs; [done|].
        cbn [length pred joint_before].
        rewrite lookup_app_l by (cbn; lia).
        destruct (lookup_lt_is_Some_2 (s0 :: rest) (length rest))
          as [lst ->]; [cbn; lia|]. done. }
      rewrite Hanchor.
      destruct (match last (segments self) with
                | Some lst => Segment2D.point lst
                | None => basePoint self
                end) as [rx ry|] eqn:Hanc; [|done].
      apply init_at_distance.
  - by eapply iterate_joint_distance.
Qed.

(** X7.  Segment lengths are an invariant of the interface: in every
    solver obtained from [__init__] by [addSegment] and sweeps, each joint
    that has a position is at distance [|length|] from the entry of
    [get_joint_positions] before it (the base point for the first). *)
Theorem built_segment_lengths (self : t) (i : nat) (sg : Segment2D.t)
    (prev : array2) :
  built self ->
  segments self !! i = Some sg ->
  get_joint_positions self !! i = Some prev ->
  Segment2D.point sg <> ArrNaN ->
  norm (vsub (Segment2D.point sg) prev) = Num (Rabs (Segment2D.length sg)).
Proof.
  intros Hb Hsg Hprev Hfin.
  apply joint_positions_before in Hprev; [|by eapply lookup_lt_Some].
  subst prev. by apply built_distances.
Qed.

(** The middle segment of the visualiser's chain. *)
Lemma built_segment_lengths_witness :
  norm (vsub (Segment2D.point (seg 120 270 0)) (Arr 150 0))
  = Num (Rabs (Segment2D.length (seg 120 270 0))).
Proof.
  apply (built_segment_lengths extended_arm 1 (seg 120 270 0) (Arr 150 0)).
  - apply extended_arm_built.
  - reflexivity.
  - reflexivity.
  - discriminate.
Defined.

(** ** The end effector after a sweep *)

Lemma pull_target_distance (px py tx ty l x y : R) :
  pull (Arr px py) (Arr tx ty) l = Arr x y ->
  sqrt ((x - tx) * (x - tx) + (y - ty) * (y - ty))
  = Rabs (sqrt ((px - tx) * (px - tx) + (py - ty) * (py - ty)) - l).
Proof.
  unfold pull. cbn.
  destruct (Req_dec_T _ 0) as [Hz|Hnz]; [done|].
  intros [= <- <-].
  pose proof (sqrt_sqrt _ (norm_sq_pos (px - tx) (py - ty))) as Hsq.
  set (d := sqrt ((px - tx) * (px - tx) + (py - ty) * (py - ty))) in *.
  rewrite <- sqrt_Rsqr_abs. f_equal. unfold Rsqr.
  replace ((px - tx) / d * l * -1 + px - tx) with ((px - tx) * ((d - l) / d))
    by (field; done).
  replace ((py - ty) / d * l * -1 + py - ty) with ((py - ty) * ((d - l) / d))
    by (field; done).
  replace ((px - tx) * ((d - l) / d) * ((px - tx) * ((d - l) / d))
           + (py - ty) * ((d - l) / d) * ((py - ty) * ((d - l) / d)))
    with (((px - tx) * (px - tx) + (py - ty) * (py - ty))
          * (((d - l) / d) * ((d - l) / d))) by ring.
  rewrite <- Hsq. field. done.
Qed.

(** X8.  After a sweep on a chain of two or more segments the end
    effector lies on the line through the joint before it and the target:
    its distance to the target is [|d - length|], where [d] is the
    distance from that joint to the target.  So the sweep lands exactly on
    the target when the joint before the end effector ends up at distance
    [length] from it. *)
Theorem end_effector_distance (self self' : t) (tx ty : R) (j : nat)
    (prev lst : Segment2D.t) (px py x y : R) :
  iterate self tx ty = Ok self' ->
  length (segments self') = S (S j) ->
  segments self' !! j = Some prev ->
  segments self' !! S j = Some lst ->
  Segment2D.point prev = Arr px py ->
  Segment2D.point lst = Arr x y ->
  sqrt ((x - tx) * (x - tx) + (y - ty) * (y - ty))
  = Rabs (sqrt ((px - tx) * (px - tx) + (py - ty) * (py - ty))
          - Segment2D.length lst).
Proof.
  intros Hit Hn Hprev Hlst Hp Hl.
  destruct (iterate_joints _ _ _ _ Hit) as (_ & _ & _ & Hlen & Hj).
  destruct (lookup_lt_is_Some_2 (segments self) (S j)) as [si Hsi]; [lia|].
  destruct (Hj _ _ Hsi) as (mi & _ & Hlm & Hout).
  rewrite Hlst in Hout. injection Hout as ->.
  cbn [Segment2D.point Segment2D.length Segment2D.set_point] in *.
  unfold forward_joint in Hl.
  rewrite bool_decide_eq_true_2 in Hl by (split; lia).
  cbn [joint_before] in Hl. rewrite Hprev in Hl. cbn [from_option] in Hl.
  rewrite Hp in Hl. by apply pull_target_distance.
Qed.

(** One sweep of the chain with its elbow at [(3, 4)] towards [(3, 0)]:
    the elbow stays at distance 4, the length of the last segment. *)
Lemma end_effector_distance_witness :
  sqrt ((3 - 3) * (3 - 3) + (0 - 0) * (0 - 0))
  = Rabs (sqrt ((3 - 3) * (3 - 3) + (4 - 0) * (4 - 0))
          - Segment2D.length (seg 4 3 0)).
Proof.
  apply (end_effector_distance bent_arm reached_arm 3 0 0
           (seg 5 3 4) (seg 4 3 0) 3 4 3 0);
    (apply bent_arm_sweep || reflexivity).
Defined.

(** ** The backward sweep on its own *)

(** X9.  The backward-reaching loop of [iterate] never raises, keeps the
    number of segments and their lengths, and does not move the end
    effector.  Afterwards every other joint that has a position is at
    distance [|length|] of the following segment from its anchor: the
    target for the joint before the end effector, the following joint for
    the others. *)
Theorem backward_reaching (target : array2) (segs : list Segment2D.t) :
  exists mid,
    for_each (backward_body target) (range_down (len segs - 1)) segs = Ok mid
    /\ length mid = length segs
    /\ last mid = last segs
    /\ (Segment2D.length <$> mid) = (Segment2D.length <$> segs)
    /\ forall j mj nxt,
         mid !! j = Some mj -> mid !! S j = Some nxt ->
         Segment2D.point mj <> ArrNaN ->
         norm (vsub (Segment2D.point mj)
                    (if bool_decide (S (S j) = length segs) then target
                     else Segment2D.point nxt))
         = Num (Rabs (Segment2D.length nxt)).
Proof.
  destruct (backward_sweep target segs) as (mid & Hmid & Hlen & Hsame & Hdone).
  cbn zeta in *.
  exists mid. split; [done|]. split; [done|]. split; [|split].
  - rewrite !last_lookup, Hlen. apply Hsame. lia.
  - apply list_eq. intros j. rewrite !list_lookup_fmap.
    destruct (segs !! j) as [sj|] eqn:Hsj.
    + destruct (decide (S j < length segs)%nat) as [Hlt|Hge].
      * destruct (Hdone j sj) as (nxt & _ & ->); [lia|done|done|]. done.
      * rewrite Hsame by lia. by rewrite Hsj.
    + rewrite (lookup_ge_None_2 mid j); [done|].
      rewrite Hlen. by apply lookup_ge_None_1.
  - intros j mj nxt Hmj Hnxt Hfin.
    assert (Hj : (S j < length segs)%nat).
    { rewrite <- Hlen. by eapply lookup_lt_Some. }
    destruct (lookup_lt_is_Some_2 segs j) as [sj Hsj]; [lia|].
    destruct (Hdone j sj) as (nxt' & Hnxt' & Hmj'); [lia|done|done|].
    rewrite Hnxt in Hnxt'. injection Hnxt' as <-.
    rewrite Hmj in Hmj'. injection Hmj' as ->.
    cbn [Segment2D.point Segment2D.set_point] in *.
    unfold backward_joint in *.
    case_bool_decide; by apply place_distance.
Qed.

(** ** Chains on a line *)
















(** ** Reachability and [addSegment] *)

Lemma flt_mono (d : scalar) (r r' : R) :
  r <= r' -> flt d r = true -> flt d r' = true.
Proof.
  destruct d as [x|]; cbn; [|done]. intros Hle.
  destruct (Rlt_dec x r); [|done]. destruct (Rlt_dec x r'); [done|lra].
Qed.

(** X11.  Appending a segment of non-negative length never loses a
    target: whatever was reachable before [addSegment] is reachable after
    it.  With a non-positive length it is the other way round. *)
Theorem addSegment_reachability (self self' : t) (length angle tx ty : R) :
  addSegment self length angle = Ok self' ->
  (0 <= length ->
   isReachable self tx ty = true -> isReachable self' tx ty = true) /\
  (length <= 0 ->
   isReachable self' tx ty = true -> isReachable self tx ty = true).
Proof.
  rewrite addSegment_eq. intros [= <-]. unfold isReachable. cbn.
  split; intros Hl; apply flt_mono; lra.
Qed.

(** A third segment of length 100 on the two inner segments of the
    visualiser's chain, and the target [(200, 0)]. *)
Lemma addSegment_reachability_witness :
  (0 <= 100 ->
   isReachable (Build (Arr 0 0) [seg 150 150 0; seg 120 270 0] 270 (1 / 100))
     200 0 = true ->
   isReachable
     (Build (Arr 0 0)
        ([seg 150 150 0; seg 120 270 0]
           ++ [Segment2D.init (Arr 270 0) 100 (0 + 0)])
        (270 + 100) (1 / 100)) 200 0 = true) /\
  (100 <= 0 ->
   isReachable
     (Build (Arr 0 0)
        ([seg 150 150 0; seg 120 270 0]
           ++ [Segment2D.init (Arr 270 0) 100 (0 + 0)])
        (270 + 100) (1 / 100)) 200 0 = true ->
   isReachable (Build (Arr 0 0) [seg 150 150 0; seg 120 270 0] 270 (1 / 100))
     200 0 = true).
Proof.
  apply (addSegment_reachability _ _ 100 0 200 0).
  by rewrite addSegment_eq.
Defined.

(** ** A margin that is not positive *)

Lemma inMarginOfError_nonpositive (self : t) (tx ty : R) :
  marginOfError self <= 0 -> segments self <> [] ->
  inMarginOfError self tx ty = Ok false.
Proof.
  intros Hm Hne. unfold inMarginOfError.
  destruct (last (segments self)) as [lst|] eqn:Hlast;
    [|by apply last_None in Hlast].
  rewrite (getitem_last _ _ Hlast). cbn. f_equal.
  destruct (Segment2D.point lst) as [x y|]; cbn; [|done].
  destruct (Rlt_dec _ _) as [Hlt|]; [|done].
  pose proof (sqrt_pos ((x - tx) * (x - tx) + (y - ty) * (y - ty))). lra.
Qed.

Lemma converge_nonpositive_margin (fuel : nat) (self : t) (tx ty : R) :
  marginOfError self <= 0 -> segments self <> [] ->
  converge fuel self tx ty = None.
Proof.
  revert self. induction fuel as [|fuel IH]; intros self Hm Hne; [done|].
  cbn. rewrite inMarginOfError_nonpositive by done.
  destruct (iterate_total self tx ty) as [nxt Hit]. rewrite Hit.
  pose proof (iterate_same_frame _ _ _ _ Hit) as Hf.
  apply IH.
  - by destruct Hf as (_ & _ & -> & _).
  - intros Hnil. apply Hne, nil_length_inv.
    rewrite <- (same_frame_count _ _ Hf). by rewrite Hnil.
Qed.

(** X12.  The constructor accepts any [marginOfError].  With a margin
    that is zero or negative the margin test is false for every target,
    even one the end effector sits on exactly, so [compute] never returns
    for a reachable target (it still returns [False] at once for an
    unreachable one). *)
Theorem nonpositive_margin (self : t) (tx ty : R) :
  marginOfError self <= 0 ->
  segments self <> [] ->
  inMarginOfError self tx ty = Ok false /\
  (isReachable self tx ty = true ->
   forall fuel, compute fuel self tx ty = None) /\
  (isReachable self tx ty = false ->
   forall fuel, compute fuel self tx ty = Some (Ok (false, self))).
Proof.
  intros Hm Hne. split; [by apply inMarginOfError_nonpositive|].
  split; intros Hr fuel; unfold compute; rewrite Hr; cbn; [|done].
  by rewrite converge_nonpositive_margin.
Qed.

(** Margin 0, with the end effector exactly on the target [(3, 0)]. *)
Lemma nonpositive_margin_witness :
  let arm := Build (Arr 0 0) [seg 5 3 4; seg 4 3 0] 9 0 in
  inMarginOfError arm 3 0 = Ok false /\
  (isReachable arm 3 0 = true ->
   forall fuel, compute fuel arm 3 0 = None) /\
  (isReachable arm 3 0 = false ->
   forall fuel, compute fuel arm 3 0 = Some (Ok (false, arm))).
Proof.
  cbv zeta. apply nonpositive_margin.
  - cbn. lra.
  - discriminate.
Defined.

(** ** unitVector *)

(** X13.  [unitVector] returns NaN exactly on NaN and on the zero vector;
    on every other vector it returns a vector of norm 1 with the same
    direction (the input is a positive multiple of the result). *)
Theorem unitVector_unit (v : array2) :
  (unitVector v = ArrNaN <-> v = ArrNaN \/ v = Arr 0 0) /\
  (forall x y,
     unitVector v = Arr x y ->
     norm (Arr x y) = Num 1 /\
     exists k, 0 < k /\ v = Arr (k * x) (k * y)).
Proof.
  split; [apply unitVector_nan|].
  intros x y Hu. split.
  - cbn. by rewrite (unitVector_norm _ _ _ Hu), sqrt_1.
  - destruct v as [vx vy|]; [|done]. cbn in Hu.
    destruct (Req_dec_T _ 0) as [Hz|Hnz]; [done|].
    injection Hu as <- <-.
    exists (sqrt (vx * vx + vy * vy)). split.
    + pose proof (sqrt_pos (vx * vx + vy * vy)). lra.
    + f_equal; field; done.
Qed.

(** ** How far the end effector can be from the base point *)

Lemma dist_triangle (x1 y1 x2 y2 x3 y3 : R) :
  sqrt ((x1 - x3) * (x1 - x3) + (y1 - y3) * (y1 - y3))
  <= sqrt ((x1 - x2) * (x1 - x2) + (y1 - y2) * (y1 - y2))
     + sqrt ((x2 - x3) * (x2 - x3) + (y2 - y3) * (y2 - y3)).
Proof.
  set (a := x1 - x2). set (b := y1 - y2).
  set (c := x2 - x3). set (d := y2 - y3).
  replace (x1 - x3) with (a + c) by (unfold a, c; lra).
  replace (y1 - y3) with (b + d) by (unfold b, d; lra).
  pose proof (norm_sq_pos a b) as HA. pose proof (norm_sq_pos c d) as HC.
  pose proof (sqrt_pos (a * a + b * b)) as Hp.
  pose proof (sqrt_pos (c * c + d * d)) as Hq.
  pose proof (sqrt_sqrt _ HA) as Hpp. pose proof (sqrt_sqrt _ HC) as Hqq.
  set (p := sqrt (a * a + b * b)) in *.
  set (q := sqrt (c * c + d * d)) in *.
  assert (Hcs : a * c + b * d <= p * q).
  { destruct (Rle_dec (a * c + b * d) 0) as [Hneg|Hpos]; [nra|].
    apply Rnot_le_lt in Hpos.
    apply Rsqr_incr_0_var; [|nra]. unfold Rsqr.
    replace (p * q * (p * q)) with ((p * p) * (q * q)) by ring.
    rewrite Hpp, Hqq.
    pose proof (Rle_0_sqr (a * d - b * c)) as Hsq. unfold Rsqr in Hsq.
    clearbody a b c d. nra. }
  rewrite <- (sqrt_square (p + q)) by lra.
  apply sqrt_le_1_alt. nra.
Qed.

Lemma chain_bound (l : list Segment2D.t) (base : array2)
    (lst : Segment2D.t) (x y : R) :
  (forall i sg, l !! i = Some sg -> Segment2D.point sg <> ArrNaN ->
     norm (vsub (Segment2D.point sg) (joint_before base l i))
     = Num (Rabs (Segment2D.length sg))) ->
  last l = Some lst ->
  Segment2D.point lst = Arr x y ->
  exists bx by',
    base = Arr bx by' /\
    sqrt ((x - bx) * (x - bx) + (y - by') * (y - by'))
    <= foldr Rplus 0 (Rabs <$> (Segment2D.length <$> l)).
Proof.
  revert base. induction l as [|s0 rest IH]; intros base Hinv Hlast Hp;
    [done|].
  destruct rest as [|s1 rest'] eqn:Hrest.
  - cbn in Hlast. injection Hlast as ->.
    pose proof (Hinv 0%nat lst eq_refl) as H0. rewrite Hp in H0.
    specialize (H0 ltac:(done)). cbn in H0.
    destruct base as [bx by'|]; [|done]. cbn in H0. injection H0 as H0.
    exists bx, by'. split; [done|]. cbn. rewrite H0. lra.
  - rewrite <- Hrest in *.
    assert (Hlast' : last rest = Some lst).
    { rewrite Hrest in *. by rewrite last_cons_cons in Hlast. }
    destruct (IH (Segment2D.point s0)) as (px & py & Hs0 & Hle);
      [|done|done|].
    { intros i sg Hsg Hfin.
      rewrite <- (Hinv (S i) sg Hsg Hfin). do 2 f_equal.
      destruct i as [|j]; done. }
    pose proof (Hinv 0%nat s0 eq_refl) as H0. rewrite Hs0 in H0.
    specialize (H0 ltac:(done)). cbn in H0.
    destruct base as [bx by'|]; [|done]. cbn in H0. injection H0 as H0.
    exists bx, by'. split; [done|].
    cbn [fmap list_fmap foldr].
    pose proof (dist_triangle x y px py bx by').
    cbn [fmap] in Hle. lra.
Qed.

Lemma sum_abs_nonneg (l : list Segment2D.t) :
  Forall (fun sg => 0 <= Segment2D.length sg) l ->
  foldr Rplus 0 (Rabs <$> (Segment2D.length <$> l))
  = foldr Rplus 0 (Segment2D.length <$> l).
Proof.
  induction 1 as [|sg l Hsg _ IH]; [done|].
  cbn. cbn in IH. rewrite IH. by rewrite Rabs_right by lra.
Qed.

(** X14.  The end effector never leaves the disk that [isReachable]
    tests against: in a solver obtained through the interface with
    non-negative segment lengths, an end effector that has a position is
    at distance at most [armLength] from the base point. *)
Theorem end_effector_within_reach (self : t) (lst : Segment2D.t) (x y : R) :
  built self ->
  Forall (fun sg => 0 <= Segment2D.length sg) (segments self) ->
  last (segments self) = Some lst ->
  Segment2D.point lst = Arr x y ->
  exists bx by',
    basePoint self = Arr bx by' /\
    sqrt ((x - bx) * (x - bx) + (y - by') * (y - by')) <= armLength self.
Proof.
  intros Hb Hpos Hlast Hp.
  destruct (chain_bound (segments self) (basePoint self) lst x y)
    as (bx & by' & Hbase & Hle); [|done|done|].
  { intros i sg. by apply built_distances. }
  exists bx, by'. split; [done|].
  rewrite sum_abs_nonneg in Hle by done.
  destruct (built_armLength _ Hb) as [-> _]. done.
Qed.

(** The visualiser's chain, fully extended: the bound is attained. *)
Lemma end_effector_within_reach_witness :
  exists bx by',
    basePoint extended_arm = Arr bx by' /\
    sqrt ((370 - bx) * (370 - bx) + (0 - by') * (0 - by'))
    <= armLength extended_arm.
Proof.
  apply (end_effector_within_reach extended_arm (seg 100 370 0) 370 0).
  - apply extended_arm_built.
  - repeat (apply Forall_cons_2 || apply Forall_nil_2); cbn; lra.
  - reflexivity.
  - reflexivity.
Defined.

Lemma chain_lower_bound (s0 : Segment2D.t) (rest : list Segment2D.t)
    (base : array2) (lst : Segment2D.t) (x y : R) :
  (forall i sg, (s0 :: rest) !! i = Some sg -> Segment2D.point sg <> ArrNaN ->
     norm (vsub (Segment2D.point sg) (joint_before base (s0 :: rest) i))
     = Num (Rabs (Segment2D.length sg))) ->
  last (s0 :: rest) = Some lst ->
  Segment2D.point lst = Arr x y ->
  exists bx by',
    base = Arr bx by' /\
    Rabs (Segment2D.length s0)
    - foldr Rplus 0 (Rabs <$> (Segment2D.length <$> rest))
    <= sqrt ((x - bx) * (x - bx) + (y - by') * (y - by')).
Proof.
  intros Hinv Hlast Hp.
  destruct rest as [|s1 rest'] eqn:Hrest.
  - cbn in Hlast. injection Hlast as ->.
    pose proof (Hinv 0%nat lst eq_refl) as H0. rewrite Hp in H0.
    specialize (H0 ltac:(done)). cbn in H0.
    destruct base as [bx by'|]; [|done]. cbn in H0. injection H0 as H0.
    exists bx, by'. split; [done|]. cbn. rewrite H0. lra.
  - rewrite <- Hrest in *.
    assert (Hlast' : last rest = Some lst).
    { rewrite Hrest in *. by rewrite last_cons_cons in Hlast. }
    destruct (chain_bound rest (Segment2D.point s0) lst x y)
      as (px & py & Hs0 & Hle); [|done|done|].
    { intros i sg Hsg Hfin.
      rewrite <- (Hinv (S i) sg Hsg Hfin). do 2 f_equal.
      destruct i as [|j]; done. }
    pose proof (Hinv 0%nat s0 eq_refl) as H0. rewrite Hs0 in H0.
    specialize (H0 ltac:(done)). cbn in H0.
    destruct base as [bx by'|]; [|done]. cbn in H0. injection H0 as H0.
    exists bx, by'. split; [done|].
    pose proof (dist_triangle px py x y bx by') as Htri.
    replace ((px - x) * (px - x) + (py - y) * (py - y))
      with ((x - px) * (x - px) + (y - py) * (y - py)) in Htri by ring.
    lra.
Qed.

Lemma converge_built (fuel : nat) (self self' : t) (tx ty : R) :
  built self -> converge fuel self tx ty = Some (Ok self') -> built self'.
Proof.
  revert self. induction fuel as [|fuel IH]; intros self Hb Hc; [done|].
  cbn in Hc.
  destruct (inMarginOfError self tx ty) as [[]|]; [| |done].
  - by injection Hc as <-.
  - destruct (iterate self tx ty) as [nxt|] eqn:Hit; [|done].
    apply (IH nxt); [|done]. by eapply built_iterate.
Qed.

(** X15.  [compute] can return [True] only for targets in a ring around
    the base point.  In a solver obtained through the interface with
    non-negative lengths, if [compute] returns [True] then the distance
    [d] from the base point to the target satisfies
    [length_1 - (length_2 + ... + length_n) - marginOfError < d < armLength].
    For a target inside the inner radius the reachability test passes,
    yet [compute] cannot return. *)
Theorem compute_true_ring (fuel : nat) (self self' : t) (tx ty bx by' : R)
    (s0 : Segment2D.t) (rest : list Segment2D.t) :
  built self ->
  Forall (fun sg => 0 <= Segment2D.length sg) (segments self) ->
  segments self = s0 :: rest ->
  basePoint self = Arr bx by' ->
  compute fuel self tx ty = Some (Ok (true, self')) ->
  Segment2D.length s0 - foldr Rplus 0 (Segment2D.length <$> rest)
  - marginOfError self
  < sqrt ((bx - tx) * (bx - tx) + (by' - ty) * (by' - ty))
  < armLength self.
Proof.
  intros Hb Hpos Hsegs Hbase Hc.
  pose proof (compute_same_frame _ _ _ _ _ _ Hc) as Hf.
  destruct (compute_returns _ _ _ _ _ _ Hc) as [(? & _)|(_ & Hr & Hcv)];
    [done|].
  split; [|by apply (isReachable_iff _ _ _ _ _ Hbase)].
  pose proof (converge_built _ _ _ _ _ Hb Hcv) as Hb'.
  destruct (converge_returns _ _ _ _ _ Hcv) as [Hin _].
  destruct (inMarginOfError_true _ _ _ Hin) as (lst & x & y & Hlast & Hp & Hm).
  destruct Hf as (Hfb & _ & Hfm & Hfl & _).
  rewrite Hfm in Hm.
  destruct (segments self') as [|s0' rest'] eqn:Hsegs'; [done|].
  rewrite Hsegs in *. cbn in Hfl. injection Hfl as Hl0 Hlrest.
  destruct (chain_lower_bound s0' rest' (basePoint self') lst x y)
    as (bx' & by2 & Hbase' & Hlow); [|done|done|].
  { intros i sg. rewrite <- Hsegs'. by apply built_distances. }
  rewrite Hfb, Hbase in Hbase'. injection Hbase' as <- <-.
  assert (Hpos' : Forall (fun sg => 0 <= Segment2D.length sg) (s0' :: rest')).
  { eapply nonneg_lengths; [|exact Hpos]. cbn. by rewrite Hl0, Hlrest. }
  apply Forall_cons in Hpos' as [Hp0 Hprest].
  rewrite (sum_abs_nonneg _ Hprest), Hlrest in Hlow.
  rewrite Rabs_right, Hl0 in Hlow by lra.
  pose proof (dist_triangle x y tx ty bx by') as Htri.
  replace ((tx - bx) * (tx - bx) + (ty - by') * (ty - by'))
    with ((bx - tx) * (bx - tx) + (by' - ty) * (by' - ty)) in Htri by ring.
  lra.
Qed.

Lemma single_arm_near_compute :
  compute 1 single_arm (999 / 1000) 0 = Some (Ok (true, single_arm)).
Proof.
  unfold compute.
  rewrite (isReachable_eval _ 0 0 (999 / 1000) 0 (999 / 1000))
    by (done || lra).
  rewrite flt_true by (cbn; lra). cbn [negb converge].
  rewrite (inMarginOfError_eval single_arm (seg 1 1 0) 1 0 (999 / 1000) 0
             (1 / 1000)) by (done || lra).
  by rewrite flt_true by (cbn; lra).
Qed.

(** The one-segment chain of length 1 and a target next to its joint. *)
Lemma compute_true_ring_witness :
  Segment2D.length (seg 1 1 0) - foldr Rplus 0 (Segment2D.length <$> [])
  - marginOfError single_arm
  < sqrt ((0 - 999 / 1000) * (0 - 999 / 1000) + (0 - 0) * (0 - 0))
  < armLength single_arm.
Proof.
  apply (compute_true_ring 1 single_arm single_arm (999 / 1000) 0 0 0
           (seg 1 1 0) []).
  - apply single_arm_built.
  - repeat (apply Forall_cons_2 || apply Forall_nil_2); cbn; lra.
  - reflexivity.
  - reflexivity.
  - apply single_arm_near_compute.
Defined.

(** ** The visualiser's arm and targets on its row *)

Lemma row_arm_built (cx cy : R) : built (row_arm cx cy).
Proof.
  apply (built_addSegment
           (Build (Arr cx cy)
              [seg 150 (cx + 150) cy; seg 120 (cx + 270) cy] 270 (1 / 100))
           _ 100 0).
  - apply (built_addSegment
             (Build (Arr cx cy) [seg 150 (cx + 150) cy] 150 (1 / 100))
             _ 120 0).
    + apply (built_addSegment (init cx cy (1 / 100)) _ 150 0);
        [apply built_init|].
      rewrite addSegment_eq. cbn. rewrite init_flat by done.
      do 2 f_equal. lra.
    + rewrite addSegment_eq. cbn. rewrite init_flat by lra.
      do 2 f_equal; [do 3 f_equal|]; lra.
  - rewrite addSegment_eq. cbn. rewrite init_flat by lra.
    unfold row_arm. do 2 f_equal; [do 4 f_equal|]; lra.
Qed.

Lemma row_sweep (cx cy t e : R) :
  50 < t < 270 ->
  iterate (Build (Arr cx cy)
             [seg 150 (cx + 150) cy; seg 120 (cx + 270) cy; seg 100 e cy]
             370 (1 / 100)) (cx + t) cy
  = Ok (folded_arm cx cy).
Proof.
  intros Ht. unfold folded_arm. rewrite iterate_three. cbn.
  rewrite (place_eval (cx + 270) cy (cx + t) cy 100 (270 - t)
             (cx + t + 100) cy); [|lra|ring|field; lra|field; lra].
  rewrite (place_eval (cx + 150) cy (cx + t + 100) cy 120 (t - 50)
             (cx + t - 20) cy); [|lra|ring|field; lra|field; lra].
  rewrite (place_eval (cx + t - 20) cy cx cy 150 (t - 20)
             (cx + 150) cy); [|lra|ring|field; lra|field; lra].
  rewrite (place_eval (cx + t + 100) cy (cx + 150) cy 120 (t - 50)
             (cx + 270) cy); [|lra|ring|field; lra|field; lra].
  rewrite (pull_eval (cx + 270) cy (cx + t) cy 100 (270 - t)
             (cx + 170) cy); [|lra|ring|field; lra|field; lra].
  done.
Qed.

Lemma Rabs_square (x : R) : Rabs x * Rabs x = x * x.
Proof. unfold Rabs. destruct (Rcase_abs x); ring. Qed.

Lemma row_arm_stalls (cx cy t : R) (fuel : nat) :
  50 < t < 270 -> 1 / 100 <= Rabs (170 - t) ->
  converge fuel (row_arm cx cy) (cx + t) cy = None.
Proof.
  intros Ht Hoff.
  destruct fuel as [|fuel]; [done|]. cbn [converge].
  rewrite (inMarginOfError_eval (row_arm cx cy) (seg 100 (cx + 370) cy)
             (cx + 370) cy (cx + t) cy (370 - t)); [|done|done|lra|ring].
  rewrite flt_false by (cbn; lra).
  unfold row_arm at 1. rewrite row_sweep by done.
  apply converge_fixed_point.
  - rewrite (inMarginOfError_eval (folded_arm cx cy) (seg 100 (cx + 170) cy)
               (cx + 170) cy (cx + t) cy (Rabs (170 - t)));
      [|done|done|apply Rabs_pos|rewrite Rabs_square; ring].
    f_equal. by apply flt_false.
  - unfold folded_arm at 1. by rewrite row_sweep.
Qed.

Lemma row_arm_reachable (cx cy t : R) :
  50 < t < 270 -> isReachable (row_arm cx cy) (cx + t) cy = true.
Proof.
  intros Ht.
  rewrite (isReachable_eval _ cx cy (cx + t) cy t); [|done|lra|ring].
  apply flt_true. cbn. lra.
Qed.

(** X16.  The arm the visualiser builds (lengths 150, 120, 100, extended
    to the right of its base point) cannot be solved for targets on its
    own row: for a target [t] to the right of the base point with
    [50 < t < 270] and at least the margin away from 170, the target is
    reachable, the first sweep folds the end effector back to 170, every
    later sweep reproduces that pose, and [compute] never returns. *)
Theorem row_target_never_solved (cx cy t : R) :
  50 < t < 270 ->
  1 / 100 <= Rabs (170 - t) ->
  built (row_arm cx cy) /\
  isReachable (row_arm cx cy) (cx + t) cy = true /\
  iterate (row_arm cx cy) (cx + t) cy = Ok (folded_arm cx cy) /\
  iterate (folded_arm cx cy) (cx + t) cy = Ok (folded_arm cx cy) /\
  forall fuel, compute fuel (row_arm cx cy) (cx + t) cy = None.
Proof.
  intros Ht Hoff.
  split; [apply row_arm_built|]. split; [by apply row_arm_reachable|].
  split; [by apply row_sweep|]. split; [by apply row_sweep|].
  intros fuel. unfold compute.
  rewrite row_arm_reachable by done. cbn [negb].
  by rewrite row_arm_stalls.
Qed.

(** Base point at the origin, target [(200, 0)]. *)
Lemma row_target_never_solved_witness :
  built (row_arm 0 0) /\
  isReachable (row_arm 0 0) (0 + 200) 0 = true /\
  iterate (row_arm 0 0) (0 + 200) 0 = Ok (folded_arm 0 0) /\
  iterate (folded_arm 0 0) (0 + 200) 0 = Ok (folded_arm 0 0) /\
  forall fuel, compute fuel (row_arm 0 0) (0 + 200) 0 = None.
Proof.
  apply row_target_never_solved; [lra|].
  unfold Rabs. destruct (Rcase_abs (170 - 200)); lra.
Defined.

(** A target on the row that the arm does reach: one sweep folds the end
    effector onto [cx + 170]. *)
Lemma row_compute_170 (cx cy : R) :
  compute 2 (row_arm cx cy) (cx + 170) cy
  = Some (Ok (true, folded_arm cx cy)).
Proof.
  unfold compute.
  rewrite row_arm_reachable by lra. cbn [negb converge].
  rewrite (inMarginOfError_eval (row_arm cx cy) (seg 100 (cx + 370) cy)
             (cx + 370) cy (cx + 170) cy 200); [|done|done|lra|ring].
  rewrite flt_false by (cbn; lra).
  unfold row_arm at 1. rewrite row_sweep by lra.
  rewrite (inMarginOfError_eval (folded_arm cx cy) (seg 100 (cx + 170) cy)
             (cx + 170) cy (cx + 170) cy 0); [|done|done|lra|ring].
  by rewrite flt_true by (cbn; lra).
Qed.


(** * Properties of the visualiser *)

Lemma visualizer_init (w h : Z) :
  FabrikVisualizer.init w h
  = Ok (FabrikVisualizer.Build w h
          (row_arm (IZR (w / 2)) (IZR (h / 2))) None true).
Proof.
  assert (Hr : Segment2D.radians 0 = 0)
    by (unfold Segment2D.radians; lra).
  unfold FabrikVisualizer.init. rewrite addSegment_eq. cbn.
  rewrite addSegment_eq. cbn. rewrite addSegment_eq. cbn.
  rewrite !init_flat by lra.
  replace (0 + 0) with 0 by lra. rewrite Hr, cos_0, sin_0.
  unfold row_arm. do 3 f_equal; [|lra].
  do 2 f_equal; [|f_equal]; unfold seg; f_equal; f_equal; lra.
Qed.

(** ** The event queue *)

(** X17.  [handle_events] stops at the first [QUIT]: the events queued
    behind it are dropped, the state is the one reached just before it,
    and the answer is [False].  Without a [QUIT] the answer, when there
    is one, is [True]. *)
Theorem handle_events_quit (fuel : nat) (self : FabrikVisualizer.t)
    (before after : list FabrikVisualizer.event) :
  FabrikVisualizer.handle_events fuel self
    (before ++ FabrikVisualizer.QUIT :: after)
  = match FabrikVisualizer.handle_events fuel self before with
    | Some (Ok (true, self')) => Some (Ok (false, self'))
    | outcome => outcome
    end
  /\
  (forall flag self',
     FabrikVisualizer.handle_events fuel self before = Some (Ok (flag, self'))
     -> (flag = false <-> FabrikVisualizer.QUIT ∈ before)).
Proof.
  split.
  - revert self. induction before as [|ev rest IH]; intros self; [done|].
    destruct ev as [|pos|]; cbn; [done| |apply IH].
    destruct (compute fuel (FabrikVisualizer.solver self) _ _)
      as [[[reachable solver']|e]|]; [|done..].
    apply IH.
  - revert self. induction before as [|ev rest IH]; intros self flag self' Hh.
    + cbn in Hh. injection Hh as <- <-. split; [done|].
      intros Hin. by apply elem_of_nil in Hin.
    + destruct ev as [|pos|]; cbn in Hh.
      * injection Hh as <- <-. split; [|done]. intros _. by left.
      * destruct (compute fuel (FabrikVisualizer.solver self) _ _)
          as [[[reachable solver']|e]|]; [|done..].
        rewrite (IH _ _ _ Hh), elem_of_cons.
        split; [by right|]. by intros [?|?].
      * rewrite (IH _ _ _ Hh), elem_of_cons.
        split; [by right|]. by intros [?|?].
Qed.

Lemma last_click_seen (events : list FabrikVisualizer.event)
    (seen : option (Z * Z)) :
  last_click events seen
  = match last_click events None with
    | Some pos => Some pos
    | None => seen
    end.
Proof.
  revert seen. induction events as [|ev rest IH]; intros seen; [done|].
  destruct ev as [|pos|]; cbn; [done| |apply IH].
  rewrite (IH (Some pos)). by destruct (last_click rest None).
Qed.

Lemma handle_events_state (fuel : nat) (self self' : FabrikVisualizer.t)
    (events : list FabrikVisualizer.event) (flag : bool) :
  FabrikVisualizer.handle_events fuel self events = Some (Ok (flag, self')) ->
  FabrikVisualizer.width self' = FabrikVisualizer.width self /\
  FabrikVisualizer.height self' = FabrikVisualizer.height self /\
  same_frame (FabrikVisualizer.solver self) (FabrikVisualizer.solver self') /\
  (built (FabrikVisualizer.solver self) ->
   built (FabrikVisualizer.solver self')) /\
  FabrikVisualizer.target self'
  = last_click events (FabrikVisualizer.target self) /\
  match last_click events None with
  | Some pos =>
      FabrikVisualizer.target_reachable self'
      = isReachable (FabrikVisualizer.solver self)
          (IZR (fst pos)) (IZR (snd pos))
  | None =>
      FabrikVisualizer.target_reachable self'
      = FabrikVisualizer.target_reachable self /\
      FabrikVisualizer.solver self' = FabrikVisualizer.solver self
  end.
Proof.
  revert self. induction events as [|ev rest IH]; intros self Hh.
  - cbn in Hh. injection Hh as <- <-. by repeat split.
  - destruct ev as [|pos|]; cbn in Hh.
    + injection Hh as <- <-. by repeat split.
    + destruct (compute fuel (FabrikVisualizer.solver self) _ _)
        as [[[reachable solver']|e]|] eqn:Hc; [|done..].
      pose proof (compute_same_frame _ _ _ _ _ _ Hc) as Hf.
      destruct (IH _ Hh) as (Hw & Hht & Hf' & Hb' & Ht & Hflag).
      cbn in Hw, Hht, Hf', Hb', Ht, Hflag.
      split; [done|]. split; [done|].
      split; [by eapply same_frame_trans|]. split; [|split; [done|]].
      * intros Hb. apply Hb'.
        destruct (compute_returns _ _ _ _ _ _ Hc)
          as [(_ & -> & _)|(_ & _ & Hcv)]; [done|].
        by eapply converge_built.
      * cbn [last_click]. rewrite last_click_seen.
        destruct (last_click rest None) as [pos'|].
        -- rewrite Hflag. by apply same_frame_isReachable.
        -- destruct Hflag as [-> _].
           by destruct (compute_returns _ _ _ _ _ _ Hc)
             as [(-> & _ & ->)|(-> & -> & _)].
    + by apply IH.
Qed.

(** X18.  When [handle_events] returns, the window size is unchanged, the
    solver has moved joints only, the target is the position of the last
    click handled (the last one before the first [QUIT]; the old target
    if there was none), and [target_reachable] is the reachability of that
    position; with no click the solver and the flag are untouched. *)
Theorem handle_events_clicks (fuel : nat) (self self' : FabrikVisualizer.t)
    (events : list FabrikVisualizer.event) (flag : bool) :
  FabrikVisualizer.handle_events fuel self events = Some (Ok (flag, self')) ->
  FabrikVisualizer.width self' = FabrikVisualizer.width self /\
  FabrikVisualizer.height self' = FabrikVisualizer.height self /\
  same_frame (FabrikVisualizer.solver self) (FabrikVisualizer.solver self') /\
  FabrikVisualizer.target self'
  = last_click events (FabrikVisualizer.target self) /\
  match last_click events None with
  | Some pos =>
      FabrikVisualizer.target_reachable self'
      = isReachable (FabrikVisualizer.solver self)
          (IZR (fst pos)) (IZR (snd pos))
  | None =>
      FabrikVisualizer.target_reachable self'
      = FabrikVisualizer.target_reachable self /\
      FabrikVisualizer.solver self' = FabrikVisualizer.solver self
  end.
Proof.
  intros Hh.
  destruct (handle_events_state _ _ _ _ _ Hh) as (? & ? & ? & _ & ? & ?).
  done.
Qed.

Lemma handle_events_no_raise (fuel : nat) (self : FabrikVisualizer.t)
    (events : list FabrikVisualizer.event) (e : exn) :
  built (FabrikVisualizer.solver self) ->
  FabrikVisualizer.handle_events fuel self events <> Some (Raise e).
Proof.
  revert self. induction events as [|ev rest IH]; intros self Hb; [done|].
  destruct ev as [|pos|]; cbn; [done| |by apply IH].
  destruct (compute fuel (FabrikVisualizer.solver self) _ _)
    as [[[reachable solver']|e']|] eqn:Hc; [| |done].
  - apply IH. cbn.
    destruct (compute_returns _ _ _ _ _ _ Hc)
      as [(_ & -> & _)|(_ & _ & Hcv)]; [done|].
    by eapply converge_built.
  - exfalso. by eapply built_compute_no_raise.
Qed.

(** One event that is no click, then [QUIT], then a click that is dropped. *)
Lemma handle_events_quit_witness :
  let self := FabrikVisualizer.Build 1000 700 extended_arm None true in
  FabrikVisualizer.handle_events 0 self
    ([FabrikVisualizer.OTHER] ++ FabrikVisualizer.QUIT
       :: [FabrikVisualizer.MOUSEBUTTONDOWN (700, 350)%Z])
  = Some (Ok (false, self)) /\
  (true = false <-> FabrikVisualizer.QUIT ∈ [FabrikVisualizer.OTHER]).
Proof.
  cbv zeta. split.
  - rewrite (proj1 (handle_events_quit 0 _ _ _)). reflexivity.
  - apply (proj2 (handle_events_quit 0
                    (FabrikVisualizer.Build 1000 700 extended_arm None true)
                    [FabrikVisualizer.OTHER] []) true
             (FabrikVisualizer.Build 1000 700 extended_arm None true)).
    reflexivity.
Defined.

(** X19.  A visualiser whose solver was obtained through the interface,
    as the one [__init__] builds is, never sees an exception from
    [handle_events], and the solver it is left with was obtained through
    the interface again. *)
Theorem handle_events_never_raises (fuel : nat) (self : FabrikVisualizer.t)
    (events : list FabrikVisualizer.event) :
  built (FabrikVisualizer.solver self) ->
  (forall e,
     FabrikVisualizer.handle_events fuel self events <> Some (Raise e)) /\
  (forall flag self',
     FabrikVisualizer.handle_events fuel self events = Some (Ok (flag, self'))
     -> built (FabrikVisualizer.solver self')).
Proof.
  intros Hb. split.
  - intros e. by apply handle_events_no_raise.
  - intros flag self' Hh.
    by destruct (handle_events_state _ _ _ _ _ Hh) as (_ & _ & _ & Hb' & _);
      apply Hb'.
Qed.

(** The visualiser's own solver and a click far outside the window. *)
Lemma handle_events_never_raises_witness :
  let self := FabrikVisualizer.Build 1000 700 (row_arm 500 350) None true in
  let events := [FabrikVisualizer.MOUSEBUTTONDOWN (2000, 350)%Z] in
  (forall e,
     FabrikVisualizer.handle_events 1 self events <> Some (Raise e)) /\
  (forall flag self',
     FabrikVisualizer.handle_events 1 self events = Some (Ok (flag, self'))
     -> built (FabrikVisualizer.solver self')).
Proof.
  cbv zeta. apply handle_events_never_raises. apply row_arm_built.
Defined.

(** ** Clicks on a fresh visualiser *)

Lemma row_arm_click (a b x y : Z) :
  isReachable (row_arm (IZR a) (IZR b)) (IZR x) (IZR y) = true <->
  ((a - x) * (a - x) + (b - y) * (b - y) < 136900)%Z.
Proof.
  rewrite (isReachable_iff _ (IZR a) (IZR b)) by done.
  cbn [armLength row_arm].
  rewrite <- !minus_IZR, <- !mult_IZR, <- plus_IZR.
  set (u := ((a - x) * (a - x) + (b - y) * (b - y))%Z).
  assert (Hu : 0 <= IZR u).
  { apply IZR_le. unfold u.
    pose proof (Z.square_nonneg (a - x)).
    pose proof (Z.square_nonneg (b - y)). lia. }
  replace 370 with (sqrt (370 * 370)) by (apply sqrt_square; lra).
  replace (370 * 370) with (IZR 136900) by lra.
  split.
  - intros Hlt. apply lt_IZR. apply sqrt_lt_0_alt in Hlt. exact Hlt.
  - intros Hlt. apply sqrt_lt_1_alt. split; [done|]. by apply IZR_lt.
Qed.

(** X20.  On a fresh visualiser of any window size, whenever
    [handle_events] returns, the reachability flag it shows for the last
    click handled [(x, y)] is true exactly when the click is within 370
    pixels of the window centre:
    [(x - width // 2)^2 + (y - height // 2)^2 < 136900], in integers. *)
Theorem fresh_click_flag (fuel : nat) (w h x y : Z)
    (self self' : FabrikVisualizer.t)
    (events : list FabrikVisualizer.event) (flag : bool) :
  FabrikVisualizer.init w h = Ok self ->
  FabrikVisualizer.handle_events fuel self events = Some (Ok (flag, self')) ->
  last_click events None = Some (x, y) ->
  FabrikVisualizer.target self' = Some (x, y) /\
  (FabrikVisualizer.target_reachable self' = true <->
   ((w / 2 - x) * (w / 2 - x) + (h / 2 - y) * (h / 2 - y) < 136900)%Z).
Proof.
  rewrite visualizer_init. intros [= <-] Hh Hclick.
  destruct (handle_events_state _ _ _ _ _ Hh) as (_ & _ & _ & _ & Ht & Hf).
  rewrite Hclick in Hf. cbn in Hf, Ht. split.
  - by rewrite Ht, last_click_seen, Hclick.
  - rewrite Hf. apply row_arm_click.
Qed.

Lemma far_click_compute (fuel : nat) :
  compute fuel (row_arm (IZR (1000 / 2)) (IZR (700 / 2)))
    (IZR 2000) (IZR 350)
  = Some (Ok (false, row_arm (IZR (1000 / 2)) (IZR (700 / 2)))).
Proof.
  unfold compute.
  destruct (isReachable _ _ _) eqn:Hr; [|done].
  apply row_arm_click in Hr. by vm_compute in Hr.
Qed.

(** The default 1000 by 700 window and a click at [(2000, 350)]. *)
Lemma fresh_click_flag_witness :
  FabrikVisualizer.target
    (FabrikVisualizer.Build 1000 700
       (row_arm (IZR (1000 / 2)) (IZR (700 / 2))) (Some (2000, 350)%Z) false)
  = Some (2000, 350)%Z /\
  (FabrikVisualizer.target_reachable
     (FabrikVisualizer.Build 1000 700
        (row_arm (IZR (1000 / 2)) (IZR (700 / 2))) (Some (2000, 350)%Z) false)
   = true <->
   ((1000 / 2 - 2000) * (1000 / 2 - 2000)
    + (700 / 2 - 350) * (700 / 2 - 350) < 136900)%Z).
Proof.
  apply (fresh_click_flag 1 1000 700 2000 350
           (FabrikVisualizer.Build 1000 700
              (row_arm (IZR (1000 / 2)) (IZR (700 / 2))) None true)
           _ [FabrikVisualizer.MOUSEBUTTONDOWN (2000, 350)%Z] true).
  - apply visualizer_init.
  - cbn [FabrikVisualizer.handle_events FabrikVisualizer.solver fst snd].
    rewrite far_click_compute. reflexivity.
  - reflexivity.
Defined.

Lemma handle_events_skip (fuel : nat) (self : FabrikVisualizer.t)
    (before rest : list FabrikVisualizer.event) :
  Forall (fun ev => ev = FabrikVisualizer.OTHER) before ->
  FabrikVisualizer.handle_events fuel self (before ++ rest)
  = FabrikVisualizer.handle_events fuel self rest.
Proof.
  induction 1 as [|ev before -> _ IH]; [done|]. exact IH.
Qed.

(** X21.  A click on the arm freezes a fresh visualiser.  For every window
    size, if the first click of the queue is on the row of the window
    centre, [t] pixels to its right with [50 < t < 270] and [t <> 170],
    then [handle_events] never returns, however much fuel each solve is
    given: the solve started by that click does not end. *)
Theorem click_on_row_freezes (fuel : nat) (w h t : Z)
    (self : FabrikVisualizer.t)
    (before after : list FabrikVisualizer.event) :
  FabrikVisualizer.init w h = Ok self ->
  (50 < t < 270)%Z ->
  t <> 170%Z ->
  Forall (fun ev => ev = FabrikVisualizer.OTHER) before ->
  FabrikVisualizer.handle_events fuel self
    (before
       ++ FabrikVisualizer.MOUSEBUTTONDOWN (w / 2 + t, h / 2)%Z :: after)
  = None.
Proof.
  rewrite visualizer_init. intros [= <-] [Hlo Hhi] Hne Hbefore.
  rewrite handle_events_skip by done.
  cbn [FabrikVisualizer.handle_events FabrikVisualizer.solver fst snd].
  rewrite plus_IZR.
  apply IZR_lt in Hlo, Hhi.
  assert (Hoff : 1 / 100 <= Rabs (170 - IZR t)).
  { destruct (Z_lt_le_dec t 170) as [Hlt|Hge].
    - assert (IZR t <= 169) by (apply IZR_le; lia).
      rewrite Rabs_right; lra.
    - assert (171 <= IZR t) by (apply IZR_le; lia).
      rewrite Rabs_left; lra. }
  unfold compute. rewrite row_arm_reachable by done. cbn [negb].
  by rewrite row_arm_stalls.
Qed.

(** The default 1000 by 700 window and a click at [(700, 350)]. *)
Lemma click_on_row_freezes_witness :
  FabrikVisualizer.handle_events 1000
    (FabrikVisualizer.Build 1000 700
       (row_arm (IZR (1000 / 2)) (IZR (700 / 2))) None true)
    ([] ++ FabrikVisualizer.MOUSEBUTTONDOWN (1000 / 2 + 200, 700 / 2)%Z :: [])
  = None.
Proof.
  apply (click_on_row_freezes 1000 1000 700 200).
  - apply visualizer_init.
  - lia.
  - lia.
  - apply Forall_nil_2.
Defined.

(** A 1000 by 700 window: a click outside the reach, a click 170 pixels to
    the right of the centre, which the arm reaches, then [QUIT], then a
    click that is dropped.  The target is the second click and the flag
    is its reachability. *)
Lemma handle_events_clicks_witness :
  let arm := row_arm (IZR (1000 / 2)) (IZR (700 / 2)) in
  let folded := folded_arm (IZR (1000 / 2)) (IZR (700 / 2)) in
  let self := FabrikVisualizer.Build 1000 700 arm None true in
  let self' :=
    FabrikVisualizer.Build 1000 700 folded (Some (670, 350)%Z) true in
  let events :=
    [FabrikVisualizer.MOUSEBUTTONDOWN (2000, 350)%Z;
     FabrikVisualizer.MOUSEBUTTONDOWN (670, 350)%Z;
     FabrikVisualizer.QUIT;
     FabrikVisualizer.MOUSEBUTTONDOWN (0, 0)%Z] in
  FabrikVisualizer.handle_events 2 self events = Some (Ok (false, self')) /\
  FabrikVisualizer.width self' = FabrikVisualizer.width self /\
  FabrikVisualizer.height self' = FabrikVisualizer.height self /\
  same_frame (FabrikVisualizer.solver self) (FabrikVisualizer.solver self') /\
  FabrikVisualizer.target self'
  = last_click events (FabrikVisualizer.target self) /\
  match last_click events None with
  | Some pos =>
      FabrikVisualizer.target_reachable self'
      = isReachable (FabrikVisualizer.solver self)
          (IZR (fst pos)) (IZR (snd pos))
  | None =>
      FabrikVisualizer.target_reachable self'
      = FabrikVisualizer.target_reachable self /\
      FabrikVisualizer.solver self' = FabrikVisualizer.solver self
  end.
Proof.
  cbv zeta.
  assert (Hrun :
    FabrikVisualizer.handle_events 2
      (FabrikVisualizer.Build 1000 700
         (row_arm (IZR (1000 / 2)) (IZR (700 / 2))) None true)
      [FabrikVisualizer.MOUSEBUTTONDOWN (2000, 350)%Z;
       FabrikVisualizer.MOUSEBUTTONDOWN (670, 350)%Z;
       FabrikVisualizer.QUIT;
       FabrikVisualizer.MOUSEBUTTONDOWN (0, 0)%Z]
    = Some (Ok (false,
                FabrikVisualizer.Build 1000 700
                  (folded_arm (IZR (1000 / 2)) (IZR (700 / 2)))
                  (Some (670, 350)%Z) true))).
  { cbn [FabrikVisualizer.handle_events FabrikVisualizer.solver
         FabrikVisualizer.width FabrikVisualizer.height fst snd].
    rewrite far_click_compute.
    cbn [FabrikVisualizer.handle_events FabrikVisualizer.solver
         FabrikVisualizer.width FabrikVisualizer.height fst snd].
    replace (IZR 670) with (IZR (1000 / 2) + 170)
      by (change (1000 / 2)%Z with 500%Z; lra).
    replace (IZR 350) with (IZR (700 / 2)) by reflexivity.
    rewrite row_compute_170. reflexivity. }
  split; [exact Hrun|].
  exact (handle_events_clicks 2 _ _ _ false Hrun).
Defined.
